(** * lullaby: the lifecycle coordinator [Group] of lullaby.go

    The Go package coordinates the concurrent start and the graceful stop of
    a set of services.  Every goroutine that [Group] launches is modelled as
    a small program counter; one scheduler action runs one atomic step of one
    goroutine, so a run of the program is a list of actions and every
    interleaving of the goroutines is some list.  The services themselves are
    external: the model only knows how a call of their [Start] and [Stop]
    method may end.

    What is abstracted: a statement under [lg.mu] is one atomic step; the
    goroutines [Start] and [stopAll] launch are launched in one step (a
    goroutine that has not run yet has touched nothing); time is the move
    [Deadline], which may happen at any moment after [stopCtx] exists; the
    delivery of SIGINT or SIGTERM is the move [Signal]; panics are left
    out. *)

From Stdlib Require Import ZArith.
From stdpp Require Import base option list strings.

Open Scope Z_scope.
Open Scope nat_scope.

(** ** The service capability *)

(** Go's [error]: [nil] is [None], [errors.New msg] is [Some msg]. *)
Definition error := string.
Definition outcome := option error.

(** How a call of [srvc.Start(lg.ctx)] may end. *)
Inductive StartBody :=
| StartReturn (r : outcome)        (* returns [r] without looking at the context *)
| StartAwaitCancel (r : outcome)   (* blocks on [<-ctx.Done()], then returns [r] *)
| StartHang.                       (* never returns *)

(** How a call of [srvc.Stop(stopCtx)] may end. *)
Inductive StopBody :=
| StopReturn (r : outcome)         (* returns [r] without looking at the context *)
| StopAwaitDeadline (r : outcome)  (* blocks until [stopCtx] is done, then returns [r] *)
| StopHang.                        (* ignores the deadline and never returns *)

(** [type Startable interface { Start(context.Context) error }] *)
Class Startable (S : Type) := startOf : S → StartBody.
(** [type Stoppable interface { Stop(context.Context) error }] *)
Class Stoppable (S : Type) := stopOf : S → StopBody.
(** [type Service interface { Startable; Stoppable }] *)
Class Service (S : Type) := {
  Service_Startable :: Startable S;
  Service_Stoppable :: Stoppable S
}.

(** ** Goroutines *)

(** [sync.Once]: untouched, inside [Do] (other callers block), finished. *)
Inductive Once := OnceFresh | OnceRunning | OnceDone.

(** The choice a scheduler action makes inside one goroutine. *)
Inductive Move :=
| Run                (* the goroutine's own next statement *)
| Sub (j : nat)      (* goroutine [j] of the [stopWg] this goroutine waits for *)
| Deadline           (* [lg.timeout] elapses: [stopCtx] becomes done *)
| Signal.            (* SIGINT or SIGTERM arrives on [sigChan] *)

Section Lullaby.

Context {S : Type} `{!EqDecision S} `{!Service S}.

(** What the goroutines do that can be seen from outside. *)
Inductive Event :=
| EvStartCalled (s : S)                 (* [srvc.Start(lg.ctx)] entered *)
| EvStartReturned (s : S) (r : outcome) (* ... and returned [r] *)
| EvCancel                              (* [lg.cancel()] ran *)
| EvFanOut (snap : list S)              (* [stopAll] read [lg.startedServices] *)
| EvStopCalled (s : S)                  (* [srvc.Stop(stopCtx)] entered *)
| EvStopReturned (s : S) (r : outcome). (* ... and returned [r], which is dropped *)

(** One goroutine of [stopWg]: [stopWg.Go(func() { _ = srvc.Stop(stopCtx) })]. *)
Inductive StopTask :=
| StopPending (srvc : S)
| StopInCall (srvc : S)
| StopFinished (srvc : S).

(** Where a goroutine is inside a call of [lg.Stop()]. *)
Inductive StopCall :=
| AtDo                                              (* at [lg.stopOnce.Do] *)
| AtCancel                                          (* in the body, before [lg.cancel()] *)
| AtStopAll                                         (* before [stopAll] reads the started services *)
| AtStopWait (stopCtxDone : bool) (stopWg : list StopTask) (* in [stopWg.Wait()] *)
| Returned.

(** [handleSignals]. *)
Inductive HandlerPc :=
| Select
| OnSignal (c : StopCall)
| HandlerDone.

(** The closure [Start] launches per service. *)
Inductive StartPc :=
| TrackStarted                 (* before the append to [lg.startedServices] *)
| CallStart                    (* before [srvc.Start(lg.ctx)] *)
| InStart                      (* inside [srvc.Start(lg.ctx)] *)
| OnFailure (c : StopCall)     (* [err != nil]: inside [lg.Stop()] *)
| StartDone.

(** A goroutine of [lg.wg]. *)
Inductive Task :=
| SignalTask (pc : HandlerPc)
| StartTask (srvc : S) (pc : StartPc).

(** [type Group struct].  [ctx]/[cancel] are the flag [ctxDone]; the mutex
    [mu] guards single statements, which are atomic steps here. *)
Record Group := mkGroup {
  wg : list Task;
  ctxDone : bool;
  stopOnce : Once;
  services : list S;
  startedServices : list S;
  timeout : Z
}.

Definition setWg (l : list Task) (lg : Group) : Group :=
  mkGroup l (ctxDone lg) (stopOnce lg) (services lg) (startedServices lg) (timeout lg).
Definition setCtxDone (b : bool) (lg : Group) : Group :=
  mkGroup (wg lg) b (stopOnce lg) (services lg) (startedServices lg) (timeout lg).
Definition setStopOnce (o : Once) (lg : Group) : Group :=
  mkGroup (wg lg) (ctxDone lg) o (services lg) (startedServices lg) (timeout lg).
Definition setServices (l : list S) (lg : Group) : Group :=
  mkGroup (wg lg) (ctxDone lg) (stopOnce lg) l (startedServices lg) (timeout lg).
Definition setStartedServices (l : list S) (lg : Group) : Group :=
  mkGroup (wg lg) (ctxDone lg) (stopOnce lg) (services lg) l (timeout lg).

(** ** The exported operations *)

(** [func New(timeout time.Duration) *Group] *)
Definition New (timeout : Z) : Group :=
  mkGroup [] false OnceFresh [] [] timeout.

(** [func (lg *Group) Add(service Service)] *)
Definition Add (service : S) (lg : Group) : Group :=
  setServices (services lg ++ [service]) lg.

(** [func (lg *Group) Start() error]: one [lg.wg.Go] for [handleSignals],
    one per registered service, then [return nil]. *)
Definition Start (lg : Group) : Group * outcome :=
  (setWg (wg lg ++ SignalTask Select :: map (λ srvc, StartTask srvc TrackStarted) (services lg)) lg,
   None).

Definition taskDone (t : Task) : bool :=
  match t with
  | SignalTask HandlerDone | StartTask _ StartDone => true
  | _ => false
  end.

(** [func (lg *Group) Wait()]: [lg.wg.Wait()] returns, with no value, once
    every goroutine of [lg.wg] has finished; [None] is "still blocked". *)
Definition Wait (lg : Group) : option () :=
  if forallb taskDone (wg lg) then Some () else None.

(** ** One step of a goroutine *)

Definition stopFinished (t : StopTask) : bool :=
  match t with StopFinished _ => true | _ => false end.

(** The closure of [stopAll]: call [srvc.Stop(stopCtx)], drop the result. *)
Definition stepStopTask (stopCtxDone : bool) (t : StopTask)
  : option (StopTask * list Event) :=
  match t with
  | StopPending srvc => Some (StopInCall srvc, [EvStopCalled srvc])
  | StopInCall srvc =>
      match stopOf srvc with
      | StopReturn r => Some (StopFinished srvc, [EvStopReturned srvc r])
      | StopAwaitDeadline r =>
          if stopCtxDone then Some (StopFinished srvc, [EvStopReturned srvc r]) else None
      | StopHang => None
      end
  | StopFinished _ => None
  end.

(** [func (lg *Group) stopAll()]: derive [stopCtx] from [lg.timeout], read
    [lg.startedServices] under the lock, launch one [stopWg] goroutine per
    service read, then [stopWg.Wait()].  A timeout that is not positive gives
    a [stopCtx] that is done from the outset. *)
Definition stopAll (m : Move) (lg : Group) (c : StopCall)
  : option (Group * StopCall * list Event) :=
  match c, m with
  | AtStopAll, Run =>
      Some (lg,
            AtStopWait (timeout lg <=? 0)%Z (map StopPending (startedServices lg)),
            [EvFanOut (startedServices lg)])
  | AtStopWait _ ts, Run =>
      if forallb stopFinished ts then Some (lg, Returned, []) else None
  | AtStopWait d ts, Sub j =>
      match ts !! j with
      | Some t =>
          match stepStopTask d t with
          | Some (t', ev) => Some (lg, AtStopWait d (<[j:=t']> ts), ev)
          | None => None
          end
      | None => None
      end
  | AtStopWait false ts, Deadline => Some (lg, AtStopWait true ts, [])
  | _, _ => None
  end.

(** [func (lg *Group) Stop()]:
    [lg.stopOnce.Do(func() { lg.cancel(); lg.stopAll() })].  The first caller
    runs the body, a caller that arrives while the body runs blocks, a caller
    that arrives afterwards returns at once. *)
Definition Stop (m : Move) (lg : Group) (c : StopCall)
  : option (Group * StopCall * list Event) :=
  match c with
  | AtDo =>
      match m, stopOnce lg with
      | Run, OnceFresh => Some (setStopOnce OnceRunning lg, AtCancel, [])
      | Run, OnceDone => Some (lg, Returned, [])
      | _, _ => None
      end
  | AtCancel =>
      match m with
      | Run => Some (setCtxDone true lg, AtStopAll, [EvCancel])
      | _ => None
      end
  | AtStopAll | AtStopWait _ _ =>
      match stopAll m lg c with
      | Some (lg', Returned, ev) => Some (setStopOnce OnceDone lg', Returned, ev)
      | r => r
      end
  | Returned => None
  end.

(** [func (lg *Group) handleSignals()]:
    [select { case <-lg.ctx.Done(): return; case <-sigChan: lg.Stop() }]. *)
Definition handleSignals (m : Move) (lg : Group) (pc : HandlerPc)
  : option (Group * HandlerPc * list Event) :=
  match pc with
  | Select =>
      match m with
      | Run => if ctxDone lg then Some (lg, HandlerDone, []) else None
      | Signal => Some (lg, OnSignal AtDo, [])
      | _ => None
      end
  | OnSignal c =>
      match Stop m lg c with
      | Some (lg', Returned, ev) => Some (lg', HandlerDone, ev)
      | Some (lg', c', ev) => Some (lg', OnSignal c', ev)
      | None => None
      end
  | HandlerDone => None
  end.

(** The value [srvc.Start] returned decides how the closure goes on:
    [if err := srvc.Start(lg.ctx); err != nil { lg.Stop() }]. *)
Definition afterStart (r : outcome) : StartPc :=
  match r with Some _ => OnFailure AtDo | None => StartDone end.

(** The closure [Start] hands to [lg.wg.Go] for the service [srvc]: append
    [srvc] to [lg.startedServices] under the lock, call [srvc.Start(lg.ctx)],
    call [lg.Stop()] when it failed. *)
Definition startClosure (srvc : S) (m : Move) (lg : Group) (pc : StartPc)
  : option (Group * StartPc * list Event) :=
  match pc with
  | TrackStarted =>
      match m with
      | Run => Some (setStartedServices (startedServices lg ++ [srvc]) lg, CallStart, [])
      | _ => None
      end
  | CallStart =>
      match m with
      | Run => Some (lg, InStart, [EvStartCalled srvc])
      | _ => None
      end
  | InStart =>
      match m with
      | Run =>
          match startOf srvc with
          | StartReturn r => Some (lg, afterStart r, [EvStartReturned srvc r])
          | StartAwaitCancel r =>
              if ctxDone lg then Some (lg, afterStart r, [EvStartReturned srvc r]) else None
          | StartHang => None
          end
      | _ => None
      end
  | OnFailure c =>
      match Stop m lg c with
      | Some (lg', Returned, ev) => Some (lg', StartDone, ev)
      | Some (lg', c', ev) => Some (lg', OnFailure c', ev)
      | None => None
      end
  | StartDone => None
  end.

Definition stepTask (m : Move) (lg : Group) (t : Task)
  : option (Group * Task * list Event) :=
  match t with
  | SignalTask pc =>
      match handleSignals m lg pc with
      | Some (lg', pc', ev) => Some (lg', SignalTask pc', ev)
      | None => None
      end
  | StartTask srvc pc =>
      match startClosure srvc m lg pc with
      | Some (lg', pc', ev) => Some (lg', StartTask srvc pc', ev)
      | None => None
      end
  end.

(** ** The program around the group *)

(** The group, the goroutines outside [lg.wg] that are inside [lg.Stop()],
    and the log of events. *)
Record World := mkWorld {
  lg : Group;
  callers : list StopCall;
  trace : list Event
}.

Inductive Action :=
| InvokeAdd (service : S)        (* [lg.Add(service)] *)
| InvokeStart                    (* [lg.Start()] *)
| InvokeStop                     (* a goroutine outside [lg.wg] enters [lg.Stop()] *)
| ActWg (i : nat) (m : Move)     (* goroutine [i] of [lg.wg] moves *)
| ActCaller (k : nat) (m : Move) (* caller [k] of [lg.Stop()] moves *).

Definition step (a : Action) (w : World) : option World :=
  match a with
  | InvokeAdd service => Some (mkWorld (Add service (lg w)) (callers w) (trace w))
  | InvokeStart => Some (mkWorld (Start (lg w)).1 (callers w) (trace w))
  | InvokeStop => Some (mkWorld (lg w) (callers w ++ [AtDo]) (trace w))
  | ActWg i m =>
      match wg (lg w) !! i with
      | Some t =>
          match stepTask m (lg w) t with
          | Some (lg', t', ev) =>
              Some (mkWorld (setWg (<[i:=t']> (wg lg')) lg') (callers w) (trace w ++ ev))
          | None => None
          end
      | None => None
      end
  | ActCaller k m =>
      match callers w !! k with
      | Some c =>
          match Stop m (lg w) c with
          | Some (lg', c', ev) =>
              Some (mkWorld lg' (<[k:=c']> (callers w)) (trace w ++ ev))
          | None => None
          end
      | None => None
      end
  end.

Fixpoint exec (acts : list Action) (w : World) : option World :=
  match acts with
  | [] => Some w
  | a :: rest =>
      match step a w with
      | Some w' => exec rest w'
      | None => None
      end
  end.

(** A program that has just built its group. *)
Definition boot (timeout : Z) : World := mkWorld (New timeout) [] [].

(** ** Counters *)

(** Calls of [lg.Stop()] that are inside the body of [stopOnce.Do]; those
    past [lg.cancel()]; those past the read of [lg.startedServices]. *)
Definition running (c : StopCall) : nat :=
  match c with AtCancel | AtStopAll | AtStopWait _ _ => 1 | _ => 0 end.
Definition pastCancel (c : StopCall) : nat :=
  match c with AtStopAll | AtStopWait _ _ => 1 | _ => 0 end.
Definition pastFanOut (c : StopCall) : nat :=
  match c with AtStopWait _ _ => 1 | _ => 0 end.
Definition returned (c : StopCall) : nat :=
  match c with Returned => 1 | _ => 0 end.

Definition same (s x : S) : nat := if decide (x = s) then 1 else 0.

(** How often [s] occurs in a list of services. *)
Definition occ (s : S) (l : list S) : nat := sum_list_with (same s) l.

(** Goroutines of a [stopWg] that have not yet entered [s.Stop]. *)
Definition isPending (s : S) (t : StopTask) : nat :=
  match t with StopPending x => same s x | _ => 0 end.
Definition pending (s : S) (c : StopCall) : nat :=
  match c with AtStopWait _ ts => sum_list_with (isPending s) ts | _ => 0 end.

(** The call of [lg.Stop()] a goroutine of [lg.wg] is in, if any. *)
Definition callOf (t : Task) : StopCall :=
  match t with
  | SignalTask (OnSignal c) | StartTask _ (OnFailure c) => c
  | _ => Returned
  end.

(** A count over every call of [lg.Stop()] in progress, whoever made it. *)
Definition total (f : StopCall → nat) (w : World) : nat :=
  sum_list_with (λ t, f (callOf t)) (wg (lg w)) + sum_list_with f (callers w).

Definition failing (t : Task) : nat :=
  match t with StartTask _ (OnFailure _) => 1 | _ => 0 end.

(** Start goroutines of [s] that are past the append to [startedServices]. *)
Definition tracked (s : S) (t : Task) : nat :=
  match t with
  | StartTask x pc => match pc with TrackStarted => 0 | _ => same s x end
  | SignalTask _ => 0
  end.

Definition onceRunning (o : Once) : nat :=
  match o with OnceRunning => 1 | _ => 0 end.
Definition onceDone (o : Once) : nat :=
  match o with OnceDone => 1 | _ => 0 end.

(** Counts over the log. *)
Definition cancels (tr : list Event) : nat :=
  sum_list_with (λ e, match e with EvCancel => 1 | _ => 0 end) tr.
(** The lists of services [stopAll] has read, oldest first. *)
Definition snapshots (tr : list Event) : list (list S) :=
  omap (λ e, match e with EvFanOut l => Some l | _ => None end) tr.

(** How often [stopAll] ran, and how many goroutines it launched for [s]. *)
Definition fanOuts (tr : list Event) : nat := length (snapshots tr).
Definition fanned (s : S) (tr : list Event) : nat :=
  sum_list_with (occ s) (snapshots tr).

Definition stopCalls (s : S) (tr : list Event) : nat :=
  sum_list_with (λ e, match e with EvStopCalled x => same s x | _ => 0 end) tr.
Definition startFailures (tr : list Event) : nat :=
  sum_list_with (λ e, match e with EvStartReturned _ (Some _) => 1 | _ => 0 end) tr.

(** The services a run registers, in the order of the calls of [lg.Add]. *)
Definition added (acts : list Action) : list S :=
  omap (λ a, match a with InvokeAdd s => Some s | _ => None end) acts.

(** Following the spec's words, "the failure outcome of the first service to
    fail start": the first failure a start operation returned in a run. *)
Definition spec_firstFailure (tr : list Event) : outcome :=
  head (omap (λ e, match e with EvStartReturned _ (Some msg) => Some msg | _ => None end) tr).

(** A goroutine that is past the append to [lg.startedServices]. *)
Definition begun (t : Task) : bool :=
  match t with StartTask _ TrackStarted => false | _ => true end.

(** The actions of a program that has finished [lg.Add] and [lg.Start]. *)
Definition lifecycle (a : Action) : bool :=
  match a with InvokeAdd _ | InvokeStart => false | _ => true end.

(** The actions of a program that never stops the group: no call of
    [lg.Stop()] from outside and no SIGINT or SIGTERM. *)
Definition untriggered (a : Action) : bool :=
  match a with
  | ActWg _ Signal | InvokeStop | InvokeAdd _ | InvokeStart => false
  | _ => true
  end.

(** One invocation of [lg.Stop()] by caller [k], run up to the point where
    every goroutine of a fan-out over [n] services has entered [Stop]. *)
Definition stopSchedule (k n : nat) : list Action :=
  InvokeStop :: ActCaller k Run :: ActCaller k Run :: ActCaller k Run
  :: map (λ j, ActCaller k (Sub j)) (seq 0 n).

(** Every start goroutine has begun, the started set is [L], and every
    fan-out so far has read [L]. *)
Definition Settled (L : list S) (w : World) : Prop :=
  Forall (λ t, begun t = true) (wg (lg w))
  ∧ startedServices (lg w) = L
  ∧ Forall (λ snap, snap = L) (snapshots (trace w)).

(** A call of [lg.Stop()] run on its own: the moves of one goroutine, with
    the events they log. *)
Fixpoint runStop (moves : list Move) (lg : Group) (c : StopCall)
  : option (Group * StopCall * list Event) :=
  match moves with
  | [] => Some (lg, c, [])
  | m :: rest =>
      match Stop m lg c with
      | Some (lg', c', ev) =>
          match runStop rest lg' c' with
          | Some (lg'', c'', ev') => Some (lg'', c'', ev ++ ev')
          | None => None
          end
      | None => None
      end
  end.

(** The service a goroutine of [stopWg] stops. *)
Definition stopTarget (t : StopTask) : S :=
  match t with StopPending x | StopInCall x | StopFinished x => x end.

(** A goroutine of [stopWg] whose [Stop] returns, at the deadline at the
    latest. *)
Definition willReturn (t : StopTask) : Prop :=
  stopFinished t = true ∨ stopOf (stopTarget t) ≠ StopHang.

(** A call of [lg.Stop()] that waits for a [Stop] of [x] that is under way. *)
Definition waitsFor (j : nat) (x : S) (c : StopCall) : Prop :=
  ∃ d ts, c = AtStopWait d ts ∧ ts !! j = Some (StopInCall x).

(** A goroutine of [lg.wg] in a program whose services run to completion
    unprompted: the listener in its [select], or the goroutine of a service
    whose [Start] returns [nil] by itself, outside [lg.Stop()]. *)
Definition calm (t : Task) : Prop :=
  match t with
  | SignalTask Select => True
  | SignalTask _ => False
  | StartTask s pc =>
      startOf s = StartReturn None
      ∧ match pc with OnFailure _ => False | _ => True end
  end.

(** The group once [regs] have been registered on a new group. *)
Definition registered (timeout : Z) (regs : list S) : World :=
  mkWorld (mkGroup [] false OnceFresh regs [] timeout) [] [].

(** A program whose services run to completion unprompted and that nobody
    stops: the listener is in its [select], the signal is not asserted, the
    latch is fresh and no goroutine is in [lg.Stop()]. *)
Definition Unprompted (w : World) : Prop :=
  wg (lg w) !! 0 = Some (SignalTask Select)
  ∧ ctxDone (lg w) = false
  ∧ stopOnce (lg w) = OnceFresh
  ∧ callers w = []
  ∧ Forall calm (wg (lg w)).

(** A goroutine of [lg.wg] that is outside [lg.Stop()] and has not left the
    listener's [select]. *)
Definition idle (t : Task) : Prop :=
  match t with
  | SignalTask Select => True
  | SignalTask _ => False
  | StartTask _ (OnFailure _) => False
  | StartTask _ _ => True
  end.

(** No goroutine has entered [lg.Stop()] yet. *)
Definition Untouched (w : World) : Prop :=
  ctxDone (lg w) = false
  ∧ stopOnce (lg w) = OnceFresh
  ∧ callers w = []
  ∧ Forall idle (wg (lg w)).

(** The actions of a program that does not call [lg.Stop()] itself and
    receives no SIGINT or SIGTERM. *)
Definition unsolicited (a : Action) : bool :=
  match a with ActWg _ Signal | InvokeStop => false | _ => true end.

(** More counts over the log: entries into [s.Start], returns of [s.Stop]. *)
Definition startCalls (s : S) (tr : list Event) : nat :=
  sum_list_with (λ e, match e with EvStartCalled x => same s x | _ => 0 end) tr.
Definition stopReturns (s : S) (tr : list Event) : nat :=
  sum_list_with (λ e, match e with EvStopReturned x _ => same s x | _ => 0 end) tr.

(** Goroutines of a [stopWg] that are inside [s.Stop]. *)
Definition isInCall (s : S) (t : StopTask) : nat :=
  match t with StopInCall x => same s x | _ => 0 end.
Definition inCall (s : S) (c : StopCall) : nat :=
  match c with AtStopWait _ ts => sum_list_with (isInCall s) ts | _ => 0 end.

(** The goroutines of [lg.wg] begin with a listener, and a listener that has
    finished has seen the signal asserted. *)
Definition Listening (w : World) : Prop :=
  (wg (lg w) = [] ∨ ∃ pc, wg (lg w) !! 0 = Some (SignalTask pc))
  ∧ Forall (λ t, t = SignalTask HandlerDone → ctxDone (lg w) = true) (wg (lg w)).

(** Start goroutines of [s]; those that have entered [s.Start]. *)
Definition isStartOf (s : S) (t : Task) : nat :=
  match t with StartTask x _ => same s x | SignalTask _ => 0 end.
Definition called (s : S) (t : Task) : nat :=
  match t with
  | StartTask x pc =>
      match pc with TrackStarted | CallStart => 0 | _ => same s x end
  | SignalTask _ => 0
  end.

(** The actions of a program that has finished registering. *)
Definition afterRegistration (a : Action) : bool :=
  match a with InvokeAdd _ => false | _ => true end.

(** How often a run calls [lg.Start()]. *)
Definition starts (acts : list Action) : nat :=
  sum_list_with (λ a, match a with InvokeStart => 1 | _ => 0 end) acts.

(** A service that plays along: its [Start] returns, by itself or once the
    signal is asserted, and its [Stop] returns, by itself or at the
    deadline. *)
Definition cooperative (s : S) : Prop :=
  startOf s ≠ StartHang ∧ stopOf s ≠ StopHang.

(** Every service a goroutine holds has the property [P], and no goroutine
    is left inside a call of [lg.Stop()] that has returned. *)
Definition callKnown (P : S → Prop) (c : StopCall) : Prop :=
  match c with
  | AtStopWait _ ts => Forall (λ t, P (stopTarget t)) ts
  | _ => True
  end.
Definition taskKnown (P : S → Prop) (t : Task) : Prop :=
  callKnown P (callOf t)
  ∧ match t with
    | StartTask s pc => P s ∧ pc ≠ OnFailure Returned
    | SignalTask pc => pc ≠ OnSignal Returned
    end.
Definition Known (P : S → Prop) (w : World) : Prop :=
  Forall P (services (lg w))
  ∧ Forall P (startedServices (lg w))
  ∧ Forall (taskKnown P) (wg (lg w))
  ∧ Forall (callKnown P) (callers w).

(** A goroutine of [lg.wg] run on its own. *)
Fixpoint runTask (moves : list Move) (lg : Group) (t : Task)
  : option (Group * Task * list Event) :=
  match moves with
  | [] => Some (lg, t, [])
  | m :: rest =>
      match stepTask m lg t with
      | Some (lg', t', ev) =>
          match runTask rest lg' t' with
          | Some (lg'', t'', ev') => Some (lg'', t'', ev ++ ev')
          | None => None
          end
      | None => None
      end
  end.

(** The actions that bring a program to its end: moves of the goroutines
    other than the arrival of a signal, and invocations of [lg.Stop()]. *)
Definition finishing (a : Action) : bool :=
  match a with
  | ActWg _ Signal | ActCaller _ Signal | InvokeAdd _ | InvokeStart => false
  | _ => true
  end.

(** How often a run invokes [lg.Stop()] from outside [lg.wg]. *)
Definition stops (acts : list Action) : nat :=
  sum_list_with (λ a, match a with InvokeStop => 1 | _ => 0 end) acts.

(** Who runs a call of [lg.Stop()]: a goroutine of [lg.wg] (a failed start
    goroutine or the listener), or a goroutine of the program. *)
Inductive Holder :=
| InGroup (i : nat)
| Outside (k : nat).

(** Where the call of [lg.Stop()] of a holder is. *)
Definition callAt (h : Holder) (w : World) : option StopCall :=
  match h with
  | InGroup i => callOf <$> wg (lg w) !! i
  | Outside k => callers w !! k
  end.

(** ** The steps as a relation

    The same steps, one constructor per statement, for the proofs. *)

Inductive StopStep (g : Group) : StopCall → Group → StopCall → list Event → Prop :=
| SS_enter :
    stopOnce g = OnceFresh →
    StopStep g AtDo (setStopOnce OnceRunning g) AtCancel []
| SS_skip :
    stopOnce g = OnceDone →
    StopStep g AtDo g Returned []
| SS_cancel :
    StopStep g AtCancel (setCtxDone true g) AtStopAll [EvCancel]
| SS_fan :
    StopStep g AtStopAll g
      (AtStopWait (timeout g <=? 0)%Z (map StopPending (startedServices g)))
      [EvFanOut (startedServices g)]
| SS_join d ts :
    forallb stopFinished ts = true →
    StopStep g (AtStopWait d ts) (setStopOnce OnceDone g) Returned []
| SS_sub d ts j t t' ev :
    ts !! j = Some t →
    stepStopTask d t = Some (t', ev) →
    StopStep g (AtStopWait d ts) g (AtStopWait d (<[j:=t']> ts)) ev
| SS_deadline ts :
    StopStep g (AtStopWait false ts) g (AtStopWait true ts) [].

Definition resumeHandler (c : StopCall) : HandlerPc :=
  match c with Returned => HandlerDone | _ => OnSignal c end.
Definition resumeStart (c : StopCall) : StartPc :=
  match c with Returned => StartDone | _ => OnFailure c end.

Definition canReturn (g : Group) (s : S) (r : outcome) : Prop :=
  startOf s = StartReturn r ∨ (startOf s = StartAwaitCancel r ∧ ctxDone g = true).

Inductive TaskStep (g : Group) : Task → Group → Task → list Event → Prop :=
| TS_handler_stop c g' c' ev :
    StopStep g c g' c' ev →
    TaskStep g (SignalTask (OnSignal c)) g' (SignalTask (resumeHandler c')) ev
| TS_failure_stop s c g' c' ev :
    StopStep g c g' c' ev →
    TaskStep g (StartTask s (OnFailure c)) g' (StartTask s (resumeStart c')) ev
| TS_ctx_done :
    ctxDone g = true →
    TaskStep g (SignalTask Select) g (SignalTask HandlerDone) []
| TS_signal :
    TaskStep g (SignalTask Select) g (SignalTask (OnSignal AtDo)) []
| TS_track s :
    TaskStep g (StartTask s TrackStarted)
      (setStartedServices (startedServices g ++ [s]) g) (StartTask s CallStart) []
| TS_call s :
    TaskStep g (StartTask s CallStart) g (StartTask s InStart) [EvStartCalled s]
| TS_return s r :
    canReturn g s r →
    TaskStep g (StartTask s InStart) g (StartTask s (afterStart r)) [EvStartReturned s r].

Inductive WorldStep (w : World) : World → Prop :=
| WS_add s :
    WorldStep w (mkWorld (Add s (lg w)) (callers w) (trace w))
| WS_start :
    WorldStep w (mkWorld (Start (lg w)).1 (callers w) (trace w))
| WS_invoke :
    WorldStep w (mkWorld (lg w) (callers w ++ [AtDo]) (trace w))
| WS_task i t g' t' ev :
    wg (lg w) !! i = Some t →
    TaskStep (lg w) t g' t' ev →
    WorldStep w (mkWorld (setWg (<[i:=t']> (wg g')) g') (callers w) (trace w ++ ev))
| WS_caller k c g' c' ev :
    callers w !! k = Some c →
    StopStep (lg w) c g' c' ev →
    WorldStep w (mkWorld g' (<[k:=c']> (callers w)) (trace w ++ ev)).

(** ** The invariant of every run *)

Record Inv (w : World) : Prop := mkInv {
  inv_running :
    total running w = onceRunning (stopOnce (lg w));
  inv_cancels :
    cancels (trace w) = total pastCancel w + onceDone (stopOnce (lg w));
  inv_fanouts :
    fanOuts (trace w) = total pastFanOut w + onceDone (stopOnce (lg w));
  inv_calls :
    ∀ s, fanned s (trace w) = stopCalls s (trace w) + total (pending s) w;
  inv_ctx :
    ctxDone (lg w) = true ↔ 0 < cancels (trace w);
  inv_snap :
    Forall (λ l, l `prefix_of` startedServices (lg w)) (snapshots (trace w));
  inv_fail :
    0 < startFailures (trace w) →
    0 < sum_list_with failing (wg (lg w)) ∨ stopOnce (lg w) = OnceDone;
  inv_returned :
    0 < sum_list_with returned (callers w) → stopOnce (lg w) = OnceDone;
  inv_tracked :
    ∀ s, occ s (startedServices (lg w)) = sum_list_with (tracked s) (wg (lg w))
}.

End Lullaby.

(** * Test doubles and the runs of the tests *)

(** A service that does as it is told: what [Start] and [Stop] do is part of
    the value; [fakeId] tells apart two handles that behave alike. *)
Record fake := mkFake {
  fakeId : nat;
  fakeStart : StartBody;
  fakeStop : StopBody
}.

#[global] Instance StartBody_eq_dec : EqDecision StartBody.
Proof. solve_decision. Defined.
#[global] Instance StopBody_eq_dec : EqDecision StopBody.
Proof. solve_decision. Defined.
#[global] Instance fake_eq_dec : EqDecision fake.
Proof. solve_decision. Defined.

#[global] Instance fake_Service : Service fake :=
  {| Service_Startable := fakeStart; Service_Stoppable := fakeStop |}.

(** [mockService] of lullaby_test.go: [Start] fails at once with
    "start error" or blocks on [<-ctx.Done()] and returns [nil]; [Stop]
    returns "stop error" or [nil] at once. *)
Definition mockService (id : nat) (shouldStartErr shouldStopErr : bool) : fake :=
  mkFake id
    (if shouldStartErr then StartReturn (Some "start error"%string)
     else StartAwaitCancel None)
    (if shouldStopErr then StopReturn (Some "stop error"%string)
     else StopReturn None).

Definition runFrom (acts : list (Action (S:=fake))) (w : World (S:=fake))
  : World (S:=fake) :=
  default w (exec acts w).

(** TestGroupMultipleServices: three services start, then one [Stop]. *)
Definition m1 : fake := mockService 1 false false.
Definition m2 : fake := mockService 2 false false.
Definition m3 : fake := mockService 3 false false.

Definition multiple_begin : list (Action (S:=fake)) :=
  [InvokeAdd m1; InvokeAdd m2; InvokeAdd m3; InvokeStart;
   ActWg 1 Run; ActWg 1 Run; ActWg 2 Run; ActWg 2 Run; ActWg 3 Run; ActWg 3 Run].

Definition multiple_stop : list (Action (S:=fake)) :=
  stopSchedule 0 3
  ++ [ActCaller 0 (Sub 0); ActCaller 0 (Sub 1); ActCaller 0 (Sub 2); ActCaller 0 Run;
      ActWg 1 Run; ActWg 2 Run; ActWg 3 Run; ActWg 0 Run].

Definition multiple_begun : World (S:=fake) :=
  Eval vm_compute in runFrom multiple_begin (boot 0).
Definition multiple_final : World (S:=fake) :=
  Eval vm_compute in runFrom multiple_stop multiple_begun.

(** TestGroupFailedStart: the second of three services fails its start; the
    third begins only after [stopAll] has read the started services. *)
Definition f1 : fake := mockService 1 false false.
Definition f2 : fake := mockService 2 true false.
Definition f3 : fake := mockService 3 false false.

Definition failed_run : list (Action (S:=fake)) :=
  [InvokeAdd f1; InvokeAdd f2; InvokeAdd f3; InvokeStart;
   (* goroutine 0 is the listener, goroutines 1 to 3 start f1 to f3 *)
   ActWg 1 Run; ActWg 1 Run;              (* f1 is tracked, f1.Start is entered *)
   ActWg 2 Run; ActWg 2 Run; ActWg 2 Run; (* f2 is tracked, f2.Start fails *)
   ActWg 2 Run; ActWg 2 Run; ActWg 2 Run; (* Do, lg.cancel(), stopAll reads [f1; f2] *)
   ActWg 3 Run; ActWg 3 Run;              (* only now f3 is tracked and started *)
   ActWg 2 (Sub 0); ActWg 2 (Sub 0);      (* f1.Stop is called and returns *)
   ActWg 2 (Sub 1); ActWg 2 (Sub 1);      (* f2.Stop is called and returns *)
   ActWg 2 Run;                           (* stopWg.Wait() returns, goroutine 2 ends *)
   ActWg 1 Run; ActWg 3 Run;              (* f1.Start and f3.Start see ctx.Done() *)
   ActWg 0 Run].                          (* the listener sees ctx.Done() *)

Definition failed_final : World (S:=fake) :=
  Eval vm_compute in runFrom failed_run (boot 0).

(** TestGroupIdempotentStop: one service, three calls of [Stop]. *)
Definition idempotent_run : list (Action (S:=fake)) :=
  [InvokeAdd m1; InvokeStart; ActWg 1 Run; ActWg 1 Run;
   InvokeStop;                                      (* the first lg.Stop() *)
   ActCaller 0 Run; ActCaller 0 Run; ActCaller 0 Run;
   ActCaller 0 (Sub 0); ActCaller 0 (Sub 0); ActCaller 0 Run;
   InvokeStop; ActCaller 1 Run;                     (* the second *)
   InvokeStop; ActCaller 2 Run;                     (* the third *)
   ActWg 1 Run; ActWg 0 Run].

Definition idempotent_final : World (S:=fake) :=
  Eval vm_compute in runFrom idempotent_run (boot 0).

(** Two services that both fail their start, with different errors; the two
    runs differ only in which of them fails first. *)
Definition failsA : fake := mkFake 1 (StartReturn (Some "a failed"%string)) (StopReturn None).
Definition failsB : fake := mkFake 2 (StartReturn (Some "b failed"%string)) (StopReturn None).

Definition both_begin : list (Action (S:=fake)) :=
  [InvokeAdd failsA; InvokeAdd failsB; InvokeStart;
   ActWg 1 Run; ActWg 1 Run;   (* failsA is tracked, failsA.Start is entered *)
   ActWg 2 Run; ActWg 2 Run].  (* failsB is tracked, failsB.Start is entered *)
Definition both_finish : list (Action (S:=fake)) :=
  [ActWg 1 Run; ActWg 1 Run; ActWg 1 Run; (* goroutine 1: Do, lg.cancel(), stopAll *)
   ActWg 1 (Sub 0); ActWg 1 (Sub 0);      (* failsA.Stop is called and returns *)
   ActWg 1 (Sub 1); ActWg 1 (Sub 1);      (* failsB.Stop is called and returns *)
   ActWg 1 Run;                           (* stopWg.Wait() returns *)
   ActWg 2 Run;                           (* goroutine 2: Do finds the latch closed *)
   ActWg 0 Run].                          (* the listener sees ctx.Done() *)
Definition a_then_b : list (Action (S:=fake)) :=
  both_begin ++ [ActWg 1 Run; ActWg 2 Run] ++ both_finish.
Definition b_then_a : list (Action (S:=fake)) :=
  both_begin ++ [ActWg 2 Run; ActWg 1 Run] ++ both_finish.

Definition a_then_b_final : World (S:=fake) :=
  Eval vm_compute in runFrom a_then_b (boot 0).
Definition b_then_a_final : World (S:=fake) :=
  Eval vm_compute in runFrom b_then_a (boot 0).

(** A service whose start fails and whose [Stop] ignores its context. *)
Definition hanger : fake := mkFake 1 (StartReturn (Some "boom"%string)) StopHang.

Definition hung_run : list (Action (S:=fake)) :=
  [InvokeAdd hanger; InvokeStart;
   ActWg 1 Run; ActWg 1 Run; ActWg 1 Run; (* hanger is tracked, hanger.Start fails *)
   ActWg 1 Run; ActWg 1 Run; ActWg 1 Run; (* Do, lg.cancel(), stopAll reads [hanger] *)
   ActWg 1 (Sub 0);                       (* hanger.Stop is called *)
   ActWg 1 Deadline;                      (* five seconds pass: stopCtx is done *)
   ActWg 0 Run].                          (* the listener sees ctx.Done() *)

Definition hung_world : World (S:=fake) :=
  Eval vm_compute in runFrom hung_run (boot 5000000000).

(** A service whose [Start] does its work and returns [nil]. *)
Definition oneShot : fake := mkFake 1 (StartReturn None) (StopReturn None).

Definition oneShot_run : list (Action (S:=fake)) :=
  [ActWg 1 Run; ActWg 1 Run; ActWg 1 Run]. (* tracked, Start entered, Start returns nil *)

Definition oneShot_final : World (S:=fake) :=
  Eval vm_compute in
    runFrom (map InvokeAdd [oneShot] ++ InvokeStart :: oneShot_run) (boot 0).

(** A service whose [Stop] fails, and the same services with every [Stop]
    returning [nil] instead. *)
Definition badStop : fake := mockService 1 false true.

Definition mutedStop (b : StopBody) : StopBody :=
  match b with
  | StopReturn _ => StopReturn None
  | StopAwaitDeadline _ => StopAwaitDeadline None
  | StopHang => StopHang
  end.

Definition muted_Service : Service fake :=
  {| Service_Startable := fakeStart;
     Service_Stoppable := λ s, mutedStop (fakeStop s) |}.

Definition badStop_run : list (Action (S:=fake)) :=
  [InvokeAdd badStop; InvokeAdd m2; InvokeStart;
   ActWg 1 Run; ActWg 1 Run; ActWg 2 Run; ActWg 2 Run;
   InvokeStop; ActCaller 0 Run; ActCaller 0 Run; ActCaller 0 Run;
   ActCaller 0 (Sub 0); ActCaller 0 (Sub 0);
   ActCaller 0 (Sub 1); ActCaller 0 (Sub 1); ActCaller 0 Run;
   ActWg 1 Run; ActWg 2 Run; ActWg 0 Run].

Definition badStop_final : World (S:=fake) :=
  Eval vm_compute in runFrom badStop_run (boot 0).

(** The log with the outcomes of the stop operations blanked. *)
Definition withoutStopOutcomes {S : Type} (tr : list (Event (S:=S)))
  : list (Event (S:=S)) :=
  map (λ e, match e with EvStopReturned s _ => EvStopReturned s None | _ => e end) tr.

(** Two runs that differ at most in the outcomes of the stop operations. *)
Definition sameButStopOutcomes {S : Type} (w w' : World (S:=S)) : Prop :=
  lg w' = lg w ∧ callers w' = callers w
  ∧ withoutStopOutcomes (trace w') = withoutStopOutcomes (trace w).

(** The run of TestGroupFailedStart up to the fan-out, and the rest of it. *)
Definition failed_upto_fan_out : list (Action (S:=fake)) := take 12 failed_run.
Definition failed_rest : list (Action (S:=fake)) := drop 12 failed_run.
Definition failed_fanned : World (S:=fake) :=
  Eval vm_compute in runFrom failed_upto_fan_out (boot 0).

(** [lg.Start()] called twice on one registered service. *)
Definition twice_run : list (Action (S:=fake)) :=
  [InvokeStart; InvokeStart;
   ActWg 1 Run; ActWg 1 Run;   (* the goroutine of the first call *)
   ActWg 3 Run; ActWg 3 Run].  (* the goroutine of the second call *)
Definition twice_final : World (S:=fake) :=
  Eval vm_compute in runFrom (map InvokeAdd [m1] ++ twice_run) (boot 0).

(** The program calls [lg.Stop()] from a goroutine of its own, and the
    goroutines of [lg.wg] finish while that call is still in [stopAll]. *)
Definition outside_run : list (Action (S:=fake)) :=
  [InvokeAdd m1; InvokeStart;
   ActWg 1 Run; ActWg 1 Run;          (* m1 is tracked, m1.Start is entered *)
   InvokeStop;
   ActCaller 0 Run; ActCaller 0 Run;  (* Do, lg.cancel() *)
   ActWg 1 Run;                       (* m1.Start sees ctx.Done() and returns *)
   ActWg 0 Run].                      (* the listener sees ctx.Done() *)
Definition outside_world : World (S:=fake) :=
  Eval vm_compute in runFrom outside_run (boot 0).

(** [m2] is registered after [lg.Start()]. *)
Definition late_begin : list (Action (S:=fake)) := [InvokeAdd m1; InvokeStart].
Definition late_rest : list (Action (S:=fake)) :=
  [InvokeAdd m2; ActWg 1 Run; ActWg 1 Run].
Definition late_world : World (S:=fake) :=
  Eval vm_compute in runFrom (late_begin ++ late_rest) (boot 0).

(** A service that starts well and whose [Stop] ignores its context; the
    program calls [lg.Stop()] from a goroutine of its own. *)
Definition stubborn : fake := mkFake 2 (StartAwaitCancel None) StopHang.

Definition hung_outside_run : list (Action (S:=fake)) :=
  [InvokeAdd stubborn; InvokeStart;
   ActWg 1 Run; ActWg 1 Run;          (* stubborn is tracked, its Start is entered *)
   InvokeStop;
   ActCaller 0 Run; ActCaller 0 Run;  (* Do, lg.cancel() *)
   ActCaller 0 Run;                   (* stopAll reads [stubborn] *)
   ActCaller 0 (Sub 0);               (* stubborn.Stop is called *)
   ActCaller 0 Deadline;              (* five seconds pass: stopCtx is done *)
   ActWg 1 Run;                       (* stubborn.Start sees ctx.Done() *)
   ActWg 0 Run].                      (* the listener sees ctx.Done() *)

Definition hung_outside_world : World (S:=fake) :=
  Eval vm_compute in runFrom hung_outside_run (boot 5000000000).

(** The run of TestGroupFailedStart up to the moment [f2.Start] has returned
    its failure, and the rest of it. *)
Definition failed_upto_failure : list (Action (S:=fake)) := take 9 failed_run.
Definition failed_after_failure : list (Action (S:=fake)) := drop 9 failed_run.
Definition failed_at_failure : World (S:=fake) :=
  Eval vm_compute in runFrom failed_upto_failure (boot 0).

(** Three services start; the first does its work, its [Start] returns
    [nil], and its goroutine ends, while the other two wait for the
    signal. *)
Definition succeeded_run : list (Action (S:=fake)) :=
  [InvokeAdd oneShot; InvokeAdd m2; InvokeAdd m3; InvokeStart;
   ActWg 1 Run; ActWg 1 Run; ActWg 1 Run; (* tracked, Start entered, Start returns nil *)
   ActWg 2 Run; ActWg 2 Run;              (* m2 is tracked, m2.Start is entered *)
   ActWg 3 Run; ActWg 3 Run].             (* m3 is tracked, m3.Start is entered *)
Definition succeeded_world : World (S:=fake) :=
  Eval vm_compute in runFrom succeeded_run (boot 0).

(** * Proofs *)

Section Properties.

Context {S : Type} `{!EqDecision S} `{!Service S}.

Implicit Types (s : S).
Implicit Types (g : Group (S:=S)) (w : World (S:=S)) (c : StopCall (S:=S)).
Implicit Types (tr ev : list (Event (S:=S))) (acts : list (Action (S:=S))).
Implicit Types (ts : list (StopTask (S:=S))) (wl : list (Task (S:=S))).

Lemma Stop_StopStep m g c g' c' ev :
  Stop m g c = Some (g', c', ev) → StopStep g c g' c' ev.
Proof.
  intros H. destruct c as [| | |d ts|], m; simpl in H;
    repeat case_match; simplify_eq/=; by econstructor.
Qed.

Lemma stepTask_TaskStep m g t g' t' ev :
  stepTask m g t = Some (g', t', ev) → TaskStep g t g' t' ev.
Proof.
  destruct t as [pc|s pc]; simpl.
  - destruct pc as [|c|]; simpl; try done.
    + destruct m; try done.
      * destruct (ctxDone g) eqn:Hc; try done. intros [= <- <- <-]. by constructor.
      * intros [= <- <- <-]. constructor.
    + destruct (Stop m g c) as [[[g1 c1] ev1]|] eqn:Hs; try done.
      apply Stop_StopStep in Hs.
      assert (Some (g1, SignalTask (resumeHandler c1), ev1) = Some (g', t', ev)
              → TaskStep g (SignalTask (OnSignal c)) g' t' ev) as Hgo.
      { intros [= <- <- <-]. by constructor. }
      destruct c1; simpl in *; intros [= <- <- <-]; by apply Hgo.
  - destruct pc as [| | |c|]; simpl; try done.
    + destruct m; try done. intros [= <- <- <-]. constructor.
    + destruct m; try done. intros [= <- <- <-]. constructor.
    + destruct m; try done. destruct (startOf s) as [r|r|] eqn:Hb; try done.
      * intros [= <- <- <-]. constructor. by left.
      * destruct (ctxDone g) eqn:Hc; try done.
        intros [= <- <- <-]. constructor. by right.
    + destruct (Stop m g c) as [[[g1 c1] ev1]|] eqn:Hs; try done.
      apply Stop_StopStep in Hs.
      assert (Some (g1, StartTask s (resumeStart c1), ev1) = Some (g', t', ev)
              → TaskStep g (StartTask s (OnFailure c)) g' t' ev) as Hgo.
      { intros [= <- <- <-]. by constructor. }
      destruct c1; simpl in *; intros [= <- <- <-]; by apply Hgo.
Qed.

Lemma step_WorldStep a w w' : step a w = Some w' → WorldStep w w'.
Proof.
  destruct a as [s| | |i m|k m]; simpl.
  - intros [= <-]. constructor.
  - intros [= <-]. constructor.
  - intros [= <-]. constructor.
  - destruct (wg (lg w) !! i) as [t|] eqn:Hi; try done.
    destruct (stepTask m (lg w) t) as [[[g' t'] ev]|] eqn:Ht; try done.
    intros [= <-]. apply stepTask_TaskStep in Ht. by econstructor.
  - destruct (callers w !! k) as [c|] eqn:Hk; try done.
    destruct (Stop m (lg w) c) as [[[g' c'] ev]|] eqn:Hs; try done.
    intros [= <-]. apply Stop_StopStep in Hs. by econstructor.
Qed.

(** ** Sums under a goroutine's move *)

Lemma sum_list_with_insert {A} (f : A → nat) (l : list A) i x y :
  l !! i = Some x →
  sum_list_with f (<[i:=y]> l) + f x = sum_list_with f l + f y.
Proof.
  revert i. induction l as [|a l IH]; intros [|i] Hi; simplify_eq/=; [lia|].
  specialize (IH _ Hi). lia.
Qed.

Lemma sum_list_with_lookup_le {A} (f : A → nat) (l : list A) i x :
  l !! i = Some x → f x ≤ sum_list_with f l.
Proof.
  revert i. induction l as [|a l IH]; intros [|i] Hi; simplify_eq/=; [lia|].
  specialize (IH _ Hi). lia.
Qed.

Lemma sum_list_with_launched (f : Task → nat) (l : list S) :
  (∀ s, f (StartTask s TrackStarted) = 0) →
  sum_list_with f (map (λ srvc, StartTask srvc TrackStarted) l) = 0.
Proof. intros Hz. induction l; simpl; [done|]. rewrite Hz. lia. Qed.

Lemma occ_app (s : S) l1 l2 : occ s (l1 ++ l2) = occ s l1 + occ s l2.
Proof. apply sum_list_with_app. Qed.

Lemma pending_fan_out (s : S) d (l : list S) :
  pending s (AtStopWait d (map StopPending l)) = occ s l.
Proof. simpl. induction l; simpl; [done|]. unfold occ in *. simpl. lia. Qed.

Lemma pending_finished (s : S) d ts :
  forallb stopFinished ts = true → pending s (AtStopWait d ts) = 0.
Proof.
  simpl. induction ts as [|t ts IH]; simpl; [done|].
  intros [Ht Hts]%andb_prop. destruct t; try done. simpl. auto.
Qed.

Lemma stepStopTask_account (s : S) d t t' ev :
  stepStopTask d t = Some (t', ev) →
  isPending s t = stopCalls s ev + isPending s t'
  ∧ cancels ev = 0 ∧ fanOuts ev = 0 ∧ fanned s ev = 0 ∧ startFailures ev = 0
  ∧ snapshots ev = [].
Proof.
  destruct t; simpl; intros Ht; repeat case_match; simplify_eq/=;
    repeat split; lia.
Qed.

Lemma StopStep_frame (g : Group (S:=S)) c g' c' ev :
  StopStep g c g' c' ev →
  wg g' = wg g ∧ services g' = services g
  ∧ startedServices g' = startedServices g ∧ timeout g' = timeout g.
Proof. by destruct 1. Qed.

(** What one statement of [lg.Stop()] does to the counts.  The premise says
    that a call inside the body implies the latch is held. *)
Lemma StopStep_account (g : Group (S:=S)) c g' c' ev :
  StopStep g c g' c' ev →
  running c ≤ onceRunning (stopOnce g) →
  running c' + onceRunning (stopOnce g) = running c + onceRunning (stopOnce g')
  ∧ cancels ev + pastCancel c + onceDone (stopOnce g)
    = pastCancel c' + onceDone (stopOnce g')
  ∧ fanOuts ev + pastFanOut c + onceDone (stopOnce g)
    = pastFanOut c' + onceDone (stopOnce g')
  ∧ (∀ s, fanned s ev + pending s c = stopCalls s ev + pending s c')
  ∧ (ctxDone g' = true ↔ ctxDone g = true ∨ 0 < cancels ev)
  ∧ (c' = Returned → stopOnce g' = OnceDone)
  ∧ (stopOnce g = OnceDone → stopOnce g' = OnceDone)
  ∧ startFailures ev = 0
  ∧ Forall (λ l, l = startedServices g) (snapshots ev).
Proof.
  destruct 1 as [Ho|Ho| | |d ts Hall|d ts j t t' ev Hj Ht|ts]; intros Hrun;
    simpl in *.
  - rewrite Ho. simpl. split_and!; try (done || lia). intuition lia.
  - rewrite Ho. simpl. split_and!; try (done || lia). intuition lia.
  - destruct (stopOnce g); simpl; split_and!; try (done || lia); intuition lia.
  - destruct (stopOnce g); simpl; split_and!; try (done || lia || intuition lia).
    all: try (intros s; pose proof (pending_fan_out s true (startedServices g));
              unfold fanned; simpl in *; lia).
    all: repeat constructor.
  - pose proof (λ s, pending_finished s d ts Hall) as Hp. simpl in Hp.
    destruct (stopOnce g); simpl in *; try lia.
    split_and!; try (done || lia || intuition lia).
    all: try (intros s; specialize (Hp s); lia).
  - pose proof (λ s, stepStopTask_account s d t t' ev Ht) as Hacc.
    assert (cancels ev = 0 ∧ fanOuts ev = 0 ∧ startFailures ev = 0
            ∧ snapshots ev = []) as (Hc & Hf & Hsf & Hsn).
    { destruct t as [x|x|x]; destruct (Hacc x) as (_ & ? & ? & _ & ? & ?); done. }
    rewrite Hc, Hf, Hsf, Hsn.
    split_and!; try (done || lia || intuition lia).
    all: try (intros s; destruct (Hacc s) as (Hp & _ & _ & Hfs & _);
              pose proof (sum_list_with_insert (isPending s) ts j t t' Hj); lia).
  - split_and!; try (done || lia || intuition lia).
Qed.

Lemma Inv_boot t : Inv (boot (S:=S) t).
Proof. by split; simpl; try (done || lia || constructor). Qed.

Lemma callOf_resumeHandler c : callOf (SignalTask (resumeHandler c)) = c.
Proof. by destruct c. Qed.

Lemma callOf_resumeStart s c : callOf (StartTask s (resumeStart c)) = c.
Proof. by destruct c. Qed.

Lemma total_task f w i t t' g' cs tr :
  wg (lg w) !! i = Some t → wg g' = wg (lg w) → cs = callers w →
  total f (mkWorld (setWg (<[i:=t']> (wg g')) g') cs tr) + f (callOf t)
  = total f w + f (callOf t').
Proof.
  intros Hi -> ->. unfold total. simpl.
  pose proof (sum_list_with_insert (λ t, f (callOf t)) _ i t t' Hi). lia.
Qed.

Lemma total_caller f w k c c' g' tr :
  callers w !! k = Some c → wg g' = wg (lg w) →
  total f (mkWorld g' (<[k:=c']> (callers w)) tr) + f c = total f w + f c'.
Proof.
  intros Hk Hwg. unfold total. simpl. rewrite Hwg.
  pose proof (sum_list_with_insert f _ k c c' Hk). lia.
Qed.

Lemma total_lookup_task f w i t :
  wg (lg w) !! i = Some t → f (callOf t) ≤ total f w.
Proof.
  intros Hi. unfold total.
  pose proof (sum_list_with_lookup_le (λ t, f (callOf t)) _ i t Hi). lia.
Qed.

Lemma total_lookup_caller f w k c :
  callers w !! k = Some c → f c ≤ total f w.
Proof.
  intros Hk. unfold total.
  pose proof (sum_list_with_lookup_le f _ k c Hk). lia.
Qed.

Lemma snapshots_app tr ev : snapshots (tr ++ ev) = snapshots tr ++ snapshots ev.
Proof. apply omap_app. Qed.
Lemma cancels_app tr ev : cancels (tr ++ ev) = cancels tr + cancels ev.
Proof. apply sum_list_with_app. Qed.
Lemma fanOuts_app tr ev : fanOuts (tr ++ ev) = fanOuts tr + fanOuts ev.
Proof. unfold fanOuts. by rewrite snapshots_app, length_app. Qed.
Lemma fanned_app s tr ev : fanned s (tr ++ ev) = fanned s tr + fanned s ev.
Proof. unfold fanned. by rewrite snapshots_app, sum_list_with_app. Qed.
Lemma stopCalls_app s tr ev : stopCalls s (tr ++ ev) = stopCalls s tr + stopCalls s ev.
Proof. apply sum_list_with_app. Qed.
Lemma startFailures_app tr ev :
  startFailures (tr ++ ev) = startFailures tr + startFailures ev.
Proof. apply sum_list_with_app. Qed.

(** A statement of [lg.Stop()], made by whichever goroutine, keeps the
    invariant; the premises say how the world around the call changed. *)
Lemma Inv_stop_step w w' c c' g' ev :
  Inv w →
  StopStep (lg w) c g' c' ev →
  (∀ f, f c ≤ total f w) →
  (∀ f, total f w' + f c = total f w + f c') →
  trace w' = trace w ++ ev →
  ctxDone (lg w') = ctxDone g' →
  stopOnce (lg w') = stopOnce g' →
  startedServices (lg w') = startedServices g' →
  (sum_list_with failing (wg (lg w)) ≤ sum_list_with failing (wg (lg w'))
   ∨ c' = Returned) →
  (sum_list_with returned (callers w') ≤ sum_list_with returned (callers w)
   ∨ c' = Returned) →
  (∀ s, sum_list_with (tracked s) (wg (lg w'))
        = sum_list_with (tracked s) (wg (lg w))) →
  Inv w'.
Proof.
  intros [H1 H2 H3 H4 H5 H6 H7 H8 H9] Hs Hle Htot Htr Hctx Honce Hst Hfail Hret Htrk.
  pose proof (StopStep_frame _ _ _ _ _ Hs) as (_ & _ & Hss & _).
  destruct (StopStep_account _ _ _ _ _ Hs) as (A1 & A2 & A3 & A4 & A5 & A6 & A7 & A8 & A9).
  { rewrite <- H1. apply Hle. }
  split.
  - rewrite Honce. pose proof (Htot running). lia.
  - rewrite Honce, Htr, cancels_app. pose proof (Htot pastCancel). lia.
  - rewrite Honce, Htr, fanOuts_app. pose proof (Htot pastFanOut). lia.
  - intros s. rewrite Htr, fanned_app, stopCalls_app.
    pose proof (Htot (pending s)). specialize (H4 s). specialize (A4 s). lia.
  - rewrite Hctx, Htr, cancels_app, A5, H5. lia.
  - rewrite Hst, Hss, Htr, snapshots_app. apply Forall_app. split; [done|].
    eapply Forall_impl; [exact A9|]. by intros l ->.
  - rewrite Honce, Htr, startFailures_app, A8, Nat.add_0_r. intros Hf.
    destruct (H7 Hf) as [Hpos|Hd]; [|right; auto].
    destruct Hfail as [Hfail|Hr]; [left; lia|right; auto].
  - rewrite Honce. intros Hpos.
    destruct Hret as [Hret|Hr]; [|auto]. apply A7, H8. lia.
  - intros s. rewrite Hst, Hss, Htrk. apply H9.
Qed.

(** A step outside [lg.Stop()] keeps the invariant. *)
Lemma Inv_quiet_step w w' ev :
  Inv w →
  (∀ f, f AtDo = 0 → f Returned = 0 → total f w' = total f w) →
  trace w' = trace w ++ ev →
  cancels ev = 0 → fanOuts ev = 0 →
  (∀ s, fanned s ev = 0) → (∀ s, stopCalls s ev = 0) → snapshots ev = [] →
  ctxDone (lg w') = ctxDone (lg w) →
  stopOnce (lg w') = stopOnce (lg w) →
  startedServices (lg w) `prefix_of` startedServices (lg w') →
  (0 < startFailures ev → 0 < sum_list_with failing (wg (lg w'))) →
  sum_list_with failing (wg (lg w)) ≤ sum_list_with failing (wg (lg w')) →
  sum_list_with returned (callers w') = sum_list_with returned (callers w) →
  (∀ s, occ s (startedServices (lg w')) + sum_list_with (tracked s) (wg (lg w))
        = occ s (startedServices (lg w)) + sum_list_with (tracked s) (wg (lg w'))) →
  Inv w'.
Proof.
  intros [H1 H2 H3 H4 H5 H6 H7 H8 H9]
    Htot Htr Hc Hf Hfs Hsc Hsn Hctx Honce Hst Hfail Hkeep Hret Htrk.
  split.
  - rewrite Honce, Htot; done.
  - rewrite Honce, Htr, cancels_app, Htot; [lia|done..].
  - rewrite Honce, Htr, fanOuts_app, Htot; [lia|done..].
  - intros s. rewrite Htr, fanned_app, stopCalls_app, Htot, Hfs, Hsc; [|done..].
    specialize (H4 s). lia.
  - rewrite Hctx, Htr, cancels_app, Hc, H5. lia.
  - rewrite Htr, snapshots_app, Hsn, app_nil_r.
    eapply Forall_impl; [exact H6|]. intros l Hl.
    by trans (startedServices (lg w)).
  - rewrite Honce, Htr, startFailures_app. intros Hpos.
    destruct (decide (0 < startFailures ev)) as [Hnew|Hold]; [left; auto|].
    destruct H7 as [Hp|Hd]; [lia|left; lia|right; done].
  - rewrite Honce, Hret. done.
  - intros s. specialize (H9 s). specialize (Htrk s). lia.
Qed.

Lemma Inv_step w w' : Inv w → WorldStep w w' → Inv w'.
Proof.
  intros HI Hs.
  destruct Hs as [s| | |i t g' t' ev Hi Ht|k c g' c' ev Hk Hc].
  - (* lg.Add *)
    eapply (Inv_quiet_step w _ []); simpl; try (done || lia).
    by rewrite app_nil_r.
  - (* lg.Start *)
    eapply (Inv_quiet_step w _ []); simpl; try (done || lia).
    + intros f _ Hr. unfold total. simpl.
      rewrite sum_list_with_app. simpl. rewrite Hr.
      rewrite sum_list_with_launched; [lia|done].
    + by rewrite app_nil_r.
    + rewrite sum_list_with_app. lia.
    + intros s. rewrite sum_list_with_app. simpl.
      rewrite sum_list_with_launched; [lia|done].
  - (* a goroutine enters lg.Stop *)
    eapply (Inv_quiet_step w _ []); simpl; try (done || lia).
    + intros f Ha _. unfold total. simpl.
      rewrite sum_list_with_app. simpl. lia.
    + by rewrite app_nil_r.
    + rewrite sum_list_with_app. simpl. lia.
  - (* a goroutine of lg.wg *)
    pose proof (sum_list_with_insert failing _ i t t' Hi) as Hfl.
    pose proof (λ s, sum_list_with_insert (tracked s) _ i t t' Hi) as Htk.
    destruct Ht as [c g' c' ev Hc|s c g' c' ev Hc|Hd| |s|s|s r Hr].
    + pose proof (StopStep_frame _ _ _ _ _ Hc) as (Hwg & _).
      eapply (Inv_stop_step w _ c c' g' ev); simpl; try done.
      * intros f. apply (total_lookup_task f w i _ Hi).
      * intros f. rewrite <- (callOf_resumeHandler c') at 2.
        by apply (total_task f w i (SignalTask (OnSignal c))).
      * left. rewrite Hwg. simpl in Hfl. destruct c'; simpl in *; lia.
      * by left.
      * intros s. rewrite Hwg. specialize (Htk s). simpl in Htk.
        destruct c'; simpl in *; lia.
    + pose proof (StopStep_frame _ _ _ _ _ Hc) as (Hwg & _).
      eapply (Inv_stop_step w _ c c' g' ev); simpl; try done.
      * intros f. apply (total_lookup_task f w i _ Hi).
      * intros f. rewrite <- (callOf_resumeStart s c') at 2.
        by apply (total_task f w i (StartTask s (OnFailure c))).
      * rewrite Hwg. destruct c'; simpl in *; (by right) || (left; lia).
      * by left.
      * intros x. rewrite Hwg. specialize (Htk x). simpl in Htk.
        destruct c'; simpl in *; lia.
    + eapply (Inv_quiet_step w _ []); simpl in *; try done; try lia.
      * intros f Ha Hr.
        pose proof (total_task f w i _ (SignalTask HandlerDone) (lg w) _ (trace w ++ []) Hi eq_refl eq_refl).
        simpl in *. lia.
      * intros s. specialize (Htk s). simpl in *. lia.
    + eapply (Inv_quiet_step w _ []); simpl in *; try done; try lia.
      * intros f Ha Hr.
        pose proof (total_task f w i _ (SignalTask (OnSignal AtDo)) (lg w) _ (trace w ++ []) Hi eq_refl eq_refl).
        simpl in *. lia.
      * intros s. specialize (Htk s). simpl in *. lia.
    + eapply (Inv_quiet_step w _ []); simpl in *; try done; try lia.
      * intros f Ha Hr.
        pose proof (total_task f w i _ (StartTask s CallStart)
                      (setStartedServices (startedServices (lg w) ++ [s]) (lg w))
                      _ (trace w ++ []) Hi eq_refl eq_refl).
        simpl in *. lia.
      * by apply prefix_app_r.
      * intros x. specialize (Htk x). rewrite occ_app. simpl in *. lia.
    + eapply (Inv_quiet_step w _ [EvStartCalled s]); simpl in *; try done; try lia.
      * intros f Ha Hr.
        pose proof (total_task f w i _ (StartTask s InStart) (lg w) _
                      (trace w ++ [EvStartCalled s]) Hi eq_refl eq_refl).
        simpl in *. lia.
      * intros x. specialize (Htk x). simpl in *. lia.
    + eapply (Inv_quiet_step w _ [EvStartReturned s r]); simpl in *; try done; try lia.
      1: { intros f Ha Hr'.
           pose proof (total_task f w i _ (StartTask s (afterStart r)) (lg w) _
                         (trace w ++ [EvStartReturned s r]) Hi eq_refl eq_refl).
           destruct r; simpl in *; lia. }
      all: try (destruct r; simpl in *; lia).
      all: intros x; specialize (Htk x); destruct r; simpl in *; lia.
  - (* a caller of lg.Stop from outside lg.wg *)
    pose proof (StopStep_frame _ _ _ _ _ Hc) as (Hwg & _).
    pose proof (sum_list_with_insert returned _ k c c' Hk) as Hrt.
    eapply (Inv_stop_step w _ c c' g' ev); simpl; try done.
    + intros f. apply (total_lookup_caller f w k _ Hk).
    + intros f. by apply total_caller.
    + left. by rewrite Hwg.
    + destruct c'; simpl in *; (by right) || (left; lia).
    + intros s. by rewrite Hwg.
Qed.

(** ** Runs *)

Lemma exec_app acts1 acts2 w :
  exec (acts1 ++ acts2) w = exec acts1 w ≫= exec acts2.
Proof.
  revert w. induction acts1 as [|a acts1 IH]; intros w; simpl; [done|].
  destruct (step a w); simpl; [apply IH|done].
Qed.

Lemma exec_step (a : Action) acts w w1 :
  step a w = Some w1 → exec (a :: acts) w = exec acts w1.
Proof. intros Hs. simpl. by rewrite Hs. Qed.

Lemma exec_Inv acts w w' : Inv w → exec acts w = Some w' → Inv w'.
Proof.
  revert w. induction acts as [|a acts IH]; intros w HI; simpl.
  - by intros [= <-].
  - destruct (step a w) as [w1|] eqn:Hs; [|done].
    apply IH. eapply Inv_step; [done|]. by eapply step_WorldStep.
Qed.

Lemma reachable_Inv t acts (w : World (S:=S)) :
  exec acts (boot t) = Some w → Inv w.
Proof. apply exec_Inv, Inv_boot. Qed.

Lemma sum_list_with_le {A} (f g : A → nat) (l : list A) :
  (∀ x, f x ≤ g x) → sum_list_with f l ≤ sum_list_with g l.
Proof. intros Hfg. induction l as [|a l IH]; simpl; [done|]. specialize (Hfg a). lia. Qed.

Lemma total_le (f1 f2 : StopCall → nat) w :
  (∀ c, f1 c ≤ f2 c) → total f1 w ≤ total f2 w.
Proof.
  intros Hfg. unfold total.
  pose proof (sum_list_with_le (λ t, f1 (callOf t)) (λ t, f2 (callOf t)) (wg (lg w))
                (λ t, Hfg (callOf t))).
  pose proof (sum_list_with_le f1 f2 (callers w) Hfg). lia.
Qed.

Lemma pastCancel_le_running w : total pastCancel w ≤ total running w.
Proof. apply total_le. intros []; simpl; lia. Qed.

Lemma pastFanOut_le_running w : total pastFanOut w ≤ total running w.
Proof. apply total_le. intros []; simpl; lia. Qed.

Lemma pending_zero s w : total running w = 0 → total (pending s) w = 0.
Proof.
  unfold total. intros Hz.
  assert (∀ l : list StopCall,
            sum_list_with running l = 0 → sum_list_with (pending s) l = 0) as Hl.
  { induction l as [|c l IH]; simpl; [done|]. destruct c; simpl; try lia; auto. }
  assert (∀ l : list Task,
            sum_list_with (λ t, running (callOf t)) l = 0 →
            sum_list_with (λ t, pending s (callOf t)) l = 0) as Ht.
  { induction l as [|c l IH]; simpl; [done|].
    destruct (callOf c); simpl; try lia; auto. }
  rewrite Hl, Ht; lia.
Qed.

Lemma lookup_returned (cs : list (StopCall (S:=S))) k :
  cs !! k = Some Returned → 0 < sum_list_with returned cs.
Proof.
  intros Hk. pose proof (sum_list_with_lookup_le returned cs k Returned Hk).
  simpl in *. lia.
Qed.

Lemma forallb_Forall_true {A} (f : A → bool) (l : list A) :
  forallb f l = true ↔ Forall (λ x, f x = true) l.
Proof.
  induction l as [|a l IH]; simpl; [by split|].
  rewrite andb_true_iff, Forall_cons. tauto.
Qed.

Lemma Wait_all_done g : Wait g = Some () ↔ Forall (λ t, taskDone t = true) (wg g).
Proof.
  unfold Wait. rewrite <- forallb_Forall_true.
  destruct (forallb taskDone (wg g)); by split.
Qed.

Lemma done_not_failing wl :
  Forall (λ t, taskDone t = true) wl → sum_list_with failing wl = 0.
Proof.
  induction 1 as [|t l Ht _ IH]; simpl; [done|].
  destruct t as [pc|s pc]; simpl; [done|]. by destruct pc.
Qed.

(** ** The stop latch *)

(** C2: however many times and from however many goroutines [Stop] is
    invoked, the body of the stop sequence runs at most once: [lg.cancel()]
    runs at most once and [stopAll] fans out at most once.  As soon as one
    invocation has returned, or the latch is closed, both have run exactly
    once; and an invocation that does not find the latch fresh does nothing:
    it blocks or returns with the group and the log unchanged. *)
Theorem Stop_body_runs_exactly_once t acts w :
  exec acts (boot t) = Some w →
  cancels (trace w) ≤ 1 ∧ fanOuts (trace w) ≤ 1
  ∧ ((∃ k, callers w !! k = Some Returned) ∨ stopOnce (lg w) = OnceDone →
     cancels (trace w) = 1 ∧ fanOuts (trace w) = 1)
  ∧ (stopOnce (lg w) ≠ OnceFresh →
     ∀ m, Stop m (lg w) AtDo = None ∨ Stop m (lg w) AtDo = Some (lg w, Returned, [])).
Proof.
  intros Hrun. pose proof (reachable_Inv _ _ _ Hrun) as [H1 H2 H3 _ _ _ _ H8 _].
  pose proof (pastCancel_le_running w). pose proof (pastFanOut_le_running w).
  split_and!.
  - destruct (stopOnce (lg w)); simpl in *; lia.
  - destruct (stopOnce (lg w)); simpl in *; lia.
  - intros Hret. assert (stopOnce (lg w) = OnceDone) as Hd.
    { destruct Hret as [[k Hk]|Hd]; [|done]. by eapply H8, lookup_returned. }
    rewrite Hd in *. simpl in *. lia.
  - intros Hne m. simpl. destruct m; auto.
    destruct (stopOnce (lg w)); auto. done.
Qed.

(** ** Start *)

(** C6: [Start] returns [nil] whatever the registered services are.  It only
    launches the listener and one goroutine per registered service, each at
    its first statement: the call is possible in every state and leaves the
    log as it was, so no service body has run when it returns. *)
Theorem Start_returns_nil_at_once g :
  (Start g).2 = None
  ∧ wg (Start g).1
    = wg g ++ SignalTask Select :: map (λ srvc, StartTask srvc TrackStarted) (services g)
  ∧ ∀ w, lg w = g →
      step InvokeStart w = Some (mkWorld (Start g).1 (callers w) (trace w)).
Proof. split_and!; try done. by intros w <-. Qed.

(** ** The registry *)

Lemma StopStep_services g c g' c' ev :
  StopStep g c g' c' ev → services g' = services g.
Proof. by destruct 1. Qed.

Lemma TaskStep_services g (t : Task) g' t' ev :
  TaskStep g t g' t' ev → services g' = services g.
Proof. destruct 1; simpl; eauto using StopStep_services. Qed.

Lemma step_services (a : Action) w w' :
  step a w = Some w' → services (lg w') = services (lg w) ++ added [a].
Proof.
  destruct a as [s| | |i m|k m]; simpl.
  - by intros [= <-].
  - intros [= <-]. by rewrite app_nil_r.
  - intros [= <-]. by rewrite app_nil_r.
  - destruct (wg (lg w) !! i) as [t|]; [|done].
    destruct (stepTask m (lg w) t) as [[[g' t'] ev]|] eqn:Ht; [|done].
    intros [= <-]. simpl. rewrite app_nil_r.
    by eapply TaskStep_services, stepTask_TaskStep.
  - destruct (callers w !! k) as [c|]; [|done].
    destruct (Stop m (lg w) c) as [[[g' c'] ev]|] eqn:Hc; [|done].
    intros [= <-]. simpl. rewrite app_nil_r.
    by eapply StopStep_services, Stop_StopStep.
Qed.

(** C10: over any run -- registrations, [Start], invocations of [Stop], and
    every step of every goroutine -- the registry is the one the run began
    with, followed by the services registered in the run, in the order of
    their registration.  [Wait] is an observation of the group and changes
    nothing. *)
Theorem registry_changes_only_by_Add acts w w' :
  exec acts w = Some w' →
  services (lg w') = services (lg w) ++ added acts.
Proof.
  revert w. induction acts as [|a acts IH]; intros w; simpl.
  - intros [= <-]. by rewrite app_nil_r.
  - destruct (step a w) as [w1|] eqn:Hs; [|done]. intros Hrun.
    rewrite (IH _ Hrun), (step_services _ _ _ Hs), <- app_assoc.
    f_equal. by destruct a.
Qed.

(** ** What the fan-out stops *)

Lemma occ_prefix s (l1 l2 : list S) : l1 `prefix_of` l2 → occ s l1 ≤ occ s l2.
Proof. intros [k ->]. rewrite occ_app. lia. Qed.

(** Once the latch is closed the log holds exactly one fan-out, and every
    goroutine it launched has entered its service's [Stop]. *)
Lemma fan_out_complete w :
  Inv w → stopOnce (lg w) = OnceDone →
  cancels (trace w) = 1 ∧ ctxDone (lg w) = true
  ∧ ∃ snap, snapshots (trace w) = [snap]
      ∧ snap `prefix_of` startedServices (lg w)
      ∧ ∀ s, stopCalls s (trace w) = occ s snap.
Proof.
  intros [H1 H2 H3 H4 H5 H6 _ _ _] Hd. rewrite Hd in *. simpl in *.
  pose proof (pastCancel_le_running w). pose proof (pastFanOut_le_running w).
  assert (cancels (trace w) = 1) as Hc by lia.
  split_and!; [done|apply H5; lia|].
  unfold fanOuts in H3. unfold fanned in H4.
  destruct (snapshots (trace w)) as [|snap [|snap' rest]] eqn:Hsn;
    simpl in *; try lia.
  exists snap. split_and!; [done|by inversion H6|].
  intros s. specialize (H4 s). rewrite pending_zero in H4; lia.
Qed.

(** A service is never stopped more often than it is in the started set. *)
Lemma stopCalls_le_started w s :
  Inv w → stopCalls s (trace w) ≤ occ s (startedServices (lg w)).
Proof.
  intros [H1 _ H3 H4 _ H6 _ _ _]. specialize (H4 s).
  pose proof (pastFanOut_le_running w).
  unfold fanOuts in H3. unfold fanned in H4.
  destruct (snapshots (trace w)) as [|snap [|snap' rest]] eqn:Hsn; simpl in *.
  - lia.
  - inversion H6 as [|? ? Hp _]; subst. pose proof (occ_prefix s _ _ Hp). lia.
  - destruct (stopOnce (lg w)); simpl in *; lia.
Qed.

(** ** Start failures *)

(** C1, as the code has it: [Wait] returns no value, so it reports neither
    failure nor success; it returns exactly when every goroutine of [lg.wg]
    has finished.  A failed start is answered by [lg.Stop()] alone: when
    [Wait] returns after some start failed, the stop sequence has run to its
    end, once, and the shared signal is asserted. *)
Theorem Wait_returns_once_stopped t acts w :
  exec acts (boot t) = Some w →
  Wait (lg w) = Some () →
  Forall (λ task, taskDone task = true) (wg (lg w))
  ∧ (0 < startFailures (trace w) →
     stopOnce (lg w) = OnceDone ∧ ctxDone (lg w) = true ∧ cancels (trace w) = 1).
Proof.
  intros Hrun HW. pose proof (reachable_Inv _ _ _ Hrun) as HI.
  apply Wait_all_done in HW. split; [done|]. intros Hf.
  assert (stopOnce (lg w) = OnceDone) as Hd.
  { destruct (inv_fail _ HI Hf) as [Hpos|Hd]; [|done].
    rewrite done_not_failing in Hpos; [lia|done]. }
  destruct (fan_out_complete _ HI Hd) as (? & ? & _). done.
Qed.

Lemma StopStep_fan_out g c g' c' ev :
  StopStep g c g' c' ev → Forall (λ snap, snap = startedServices g) (snapshots ev).
Proof.
  destruct 1 as [| | | | |d ts j t t' ev Hj Ht|]; simpl; try by repeat constructor.
  destruct t as [x|x|x]; simpl in Ht; repeat case_match; simplify_eq/=; constructor.
Qed.

(** A goroutine's step only appends to [lg.startedServices], and a fan-out
    it runs reads the list as it is. *)
Lemma TaskStep_fan_out g (t : Task) g' t' ev :
  TaskStep g t g' t' ev →
  startedServices g `prefix_of` startedServices g'
  ∧ Forall (λ snap, snap = startedServices g) (snapshots ev).
Proof.
  destruct 1 as [c g' c' ev Hc|s c g' c' ev Hc| | |s|s|s r Hr]; simpl;
    try (split; [done|constructor]).
  - destruct (StopStep_frame _ _ _ _ _ Hc) as (_ & _ & -> & _).
    split; [done|by eapply StopStep_fan_out].
  - destruct (StopStep_frame _ _ _ _ _ Hc) as (_ & _ & -> & _).
    split; [done|by eapply StopStep_fan_out].
  - split; [by apply prefix_app_r|constructor].
Qed.

(** The services in [L] are started, and every fan-out so far has read
    them. *)
Lemma covered_step (L : list S) w w' :
  WorldStep w w' →
  L `prefix_of` startedServices (lg w) →
  Forall (λ snap, L `prefix_of` snap) (snapshots (trace w)) →
  L `prefix_of` startedServices (lg w')
  ∧ Forall (λ snap, L `prefix_of` snap) (snapshots (trace w')).
Proof.
  intros Hs HL Hsn.
  destruct Hs as [x| | |i t0 g' t' ev Hi Ht|k c g' c' ev Hk Hc]; simpl; try done.
  - destruct (TaskStep_fan_out _ _ _ _ _ Ht) as [Hp Hev].
    split; [by trans (startedServices (lg w))|].
    rewrite snapshots_app. apply Forall_app. split; [done|].
    eapply Forall_impl; [exact Hev|]. by intros snap ->.
  - destruct (StopStep_frame _ _ _ _ _ Hc) as (_ & _ & -> & _).
    split; [done|]. rewrite snapshots_app. apply Forall_app. split; [done|].
    eapply Forall_impl; [by eapply StopStep_fan_out|]. by intros snap ->.
Qed.

Lemma covered_exec (L : list S) acts w w' :
  exec acts w = Some w' →
  L `prefix_of` startedServices (lg w) →
  Forall (λ snap, L `prefix_of` snap) (snapshots (trace w)) →
  L `prefix_of` startedServices (lg w')
  ∧ Forall (λ snap, L `prefix_of` snap) (snapshots (trace w')).
Proof.
  revert w. induction acts as [|a acts IH]; intros w; simpl.
  - by intros [= <-].
  - destruct (step a w) as [w1|] eqn:Hs; [|done]. intros Hrun HL Hsn.
    destruct (covered_step L _ _ (step_WorldStep _ _ _ Hs) HL Hsn) as [HL1 Hsn1].
    by apply (IH _ Hrun).
Qed.

(** While the latch is fresh, [stopAll] has not run. *)
Lemma fresh_no_fan_out w :
  Inv w → stopOnce (lg w) = OnceFresh → snapshots (trace w) = [].
Proof.
  intros HI Hf. pose proof (inv_fanouts _ HI) as H3.
  pose proof (inv_running _ HI) as H1. pose proof (pastFanOut_le_running w).
  rewrite Hf in *. simpl in *. unfold fanOuts in H3.
  destruct (snapshots (trace w)); simpl in *; [done|lia].
Qed.

(** C4, as the code has it: a start that returns a failure makes its own
    goroutine call [lg.Stop()]; nothing records the failure.  While some
    start has failed, a failed goroutine is inside [lg.Stop()] or the stop
    sequence is over.  Take any moment [w0] of the run at which the latch is
    still fresh -- such as the moment the first failure is returned, before
    anybody has called [lg.Stop()].  Once the stop sequence is over, or
    [Wait] has returned, the single fan-out has called [Stop] exactly on the
    services that were in [lg.startedServices] when [stopAll] read it, as
    often as they were in it; that list holds every service that was
    started at [w0], so each of these has received its stop call; and it is
    a prefix of the final started set, so a service appended only after the
    read receives none. *)
Theorem start_failure_triggers_stop t acts0 w0 acts w :
  exec acts0 (boot t) = Some w0 →
  stopOnce (lg w0) = OnceFresh →
  exec acts w0 = Some w →
  0 < startFailures (trace w) →
  (0 < sum_list_with failing (wg (lg w)) ∨ stopOnce (lg w) = OnceDone)
  ∧ (Wait (lg w) = Some () ∨ stopOnce (lg w) = OnceDone →
     stopOnce (lg w) = OnceDone
     ∧ fanOuts (trace w) = 1
     ∧ ∃ snap, snapshots (trace w) = [snap]
         ∧ startedServices (lg w0) `prefix_of` snap
         ∧ snap `prefix_of` startedServices (lg w)
         ∧ ∀ s, stopCalls s (trace w) = occ s snap
                ∧ occ s (startedServices (lg w0)) ≤ stopCalls s (trace w)).
Proof.
  intros Hrun0 Hfresh Hrun Hf.
  pose proof (reachable_Inv _ _ _ Hrun0) as HI0.
  pose proof (exec_Inv _ _ _ HI0 Hrun) as HI.
  split; [by apply inv_fail|]. intros Hend.
  assert (stopOnce (lg w) = OnceDone) as Hd.
  { destruct Hend as [HW|Hd]; [|done]. apply Wait_all_done in HW.
    destruct (inv_fail _ HI Hf) as [Hpos|Hd]; [|done].
    rewrite done_not_failing in Hpos; [lia|done]. }
  destruct (fan_out_complete _ HI Hd) as (_ & _ & snap & Hsn & Hp & Hc).
  destruct (covered_exec (startedServices (lg w0)) _ _ _ Hrun) as [_ Hcov];
    [done|by rewrite (fresh_no_fan_out _ HI0 Hfresh)|].
  rewrite Hsn in Hcov. apply Forall_cons in Hcov as [Hcov _].
  split; [done|]. split; [unfold fanOuts; by rewrite Hsn|].
  exists snap. split_and!; try done. intros s. split; [done|].
  rewrite Hc. by apply occ_prefix.
Qed.

(** ** Stopping services that have all begun *)

Lemma TaskStep_frame g (t : Task) g' t' ev :
  TaskStep g t g' t' ev → wg g' = wg g.
Proof. destruct 1; simpl; try done; by eapply StopStep_frame. Qed.

Lemma StopStep_snapshots g c g' c' ev :
  StopStep g c g' c' ev → Forall (λ snap, snap = startedServices g) (snapshots ev).
Proof. apply StopStep_fan_out. Qed.

Lemma Settled_TaskStep L g (t : Task) g' t' ev :
  TaskStep g t g' t' ev → begun t = true → startedServices g = L →
  begun t' = true ∧ startedServices g' = L ∧ wg g' = wg g
  ∧ Forall (λ snap, snap = L) (snapshots ev).
Proof.
  intros Ht Hb HL. destruct Ht as [c g' c' ev Hc|s c g' c' ev Hc| | | | |s r Hr];
    simpl in *; try done; try (split_and!; by try constructor).
  - destruct (StopStep_frame _ _ _ _ _ Hc) as (? & _ & Hst & _).
    apply StopStep_snapshots in Hc. rewrite HL in Hc. rewrite Hst.
    split_and!; try done; by destruct c'.
  - destruct (StopStep_frame _ _ _ _ _ Hc) as (? & _ & Hst & _).
    apply StopStep_snapshots in Hc. rewrite HL in Hc. rewrite Hst.
    split_and!; try done; by destruct c'.
  - split_and!; try done; try constructor; by destruct r.
Qed.

Lemma Settled_step L (a : Action) w w' :
  Settled L w → lifecycle a = true → step a w = Some w' → Settled L w'.
Proof.
  intros (Hb & HL & Hsn) Hl. destruct a as [s| | |i m|k m]; simpl in *; try done.
  - by intros [= <-].
  - destruct (wg (lg w) !! i) as [t|] eqn:Hi; [|done].
    destruct (stepTask m (lg w) t) as [[[g' t'] ev]|] eqn:Ht; [|done].
    intros [= <-]. apply stepTask_TaskStep in Ht.
    destruct (Settled_TaskStep L _ _ _ _ _ Ht) as (Hb' & HL' & Hwg & Hev); [|done|].
    { by eapply (Forall_lookup_1 _ _ _ _ Hb). }
    split_and!; simpl; [|done|].
    + rewrite Hwg. by apply Forall_insert.
    + rewrite snapshots_app. by apply Forall_app.
  - destruct (callers w !! k) as [c|] eqn:Hk; [|done].
    destruct (Stop m (lg w) c) as [[[g' c'] ev]|] eqn:Hc; [|done].
    intros [= <-]. apply Stop_StopStep in Hc.
    destruct (StopStep_frame _ _ _ _ _ Hc) as (Hwg & _ & Hst & _).
    apply StopStep_snapshots in Hc. rewrite HL in Hc.
    split_and!; simpl; [by rewrite Hwg|by rewrite Hst|].
    rewrite snapshots_app. by apply Forall_app.
Qed.

Lemma Settled_exec L acts w w' :
  Settled L w → forallb lifecycle acts = true → exec acts w = Some w' →
  Settled L w'.
Proof.
  revert w. induction acts as [|a acts IH]; intros w HS; simpl.
  - by intros _ [= <-].
  - intros [Ha Hacts]%andb_prop. destruct (step a w) as [w1|] eqn:Hs; [|done].
    apply IH; [|done]. by eapply Settled_step.
Qed.

Lemma step_caller k m c g' c' ev w :
  callers w !! k = Some c →
  Stop m (lg w) c = Some (g', c', ev) →
  step (ActCaller k m) w
  = Some (mkWorld g' (<[k:=c']> (callers w)) (trace w ++ ev)).
Proof. intros Hk Hc. unfold step. by rewrite Hk, Hc. Qed.

Lemma Stop_enter g d ts j s :
  ts !! j = Some (StopPending s) →
  Stop (Sub j) g (AtStopWait d ts)
  = Some (g, AtStopWait d (<[j:=StopInCall s]> ts), [EvStopCalled s]).
Proof. intros Hj. unfold Stop, stopAll. rewrite Hj. by destruct d. Qed.

(** Running the goroutines of a fan-out, one after the other, up to their
    call of [Stop]. *)
Lemma exec_enter_all k d (pre : list StopTask) (post : list S) w :
  callers w !! k = Some (AtStopWait d (pre ++ map StopPending post)) →
  ∃ w', exec (map (λ j, ActCaller k (Sub j)) (seq (length pre) (length post))) w
        = Some w'
      ∧ ∀ s, stopCalls s (trace w') = stopCalls s (trace w) + occ s post.
Proof.
  revert pre w. induction post as [|x post IH]; intros pre w Hk.
  - exists w. split; [done|]. intros s. unfold occ. simpl. lia.
  - cbn [length seq map].
    erewrite exec_step;
      [|eapply step_caller; [exact Hk|apply Stop_enter; by apply list_lookup_middle]].
    set (w1 := mkWorld _ _ _).
    destruct (IH (pre ++ [StopInCall x]) w1) as (w' & Hex & Hcalls).
    { unfold w1. simpl. rewrite list_lookup_insert_eq by (by eapply lookup_lt_Some).
      rewrite insert_app_r_alt by lia. rewrite Nat.sub_diag. simpl.
      by rewrite <- app_assoc. }
    rewrite length_app, Nat.add_1_r in Hex. exists w'. split; [done|].
    intros s. rewrite Hcalls. unfold w1. simpl.
    rewrite stopCalls_app. unfold occ. simpl. lia.
Qed.

Lemma exec_stopSchedule w :
  stopOnce (lg w) = OnceFresh →
  ∃ w', exec (stopSchedule (length (callers w)) (length (startedServices (lg w)))) w
        = Some w'
      ∧ ∀ s, stopCalls s (trace w')
             = stopCalls s (trace w) + occ s (startedServices (lg w)).
Proof.
  intros Hf. unfold stopSchedule.
  set (k := length (callers w)).
  assert (∀ c (cs : list StopCall), length cs = k → (cs ++ [c]) !! k = Some c) as Hlast.
  { intros c cs <-. by rewrite list_lookup_middle. }
  assert (∀ c c' (cs : list StopCall), length cs = k →
            <[k:=c']> (cs ++ [c]) = cs ++ [c']) as Hins.
  { intros c c' cs <-. rewrite insert_app_r_alt by lia. by rewrite Nat.sub_diag. }
  erewrite exec_step; [|done].
  erewrite exec_step; [|eapply step_caller; [by apply Hlast|simpl; by rewrite Hf]].
  erewrite exec_step;
    [|eapply step_caller; [simpl; rewrite Hins by done; by apply Hlast|done]].
  erewrite exec_step;
    [|eapply step_caller; [simpl; rewrite !Hins by done; by apply Hlast|done]].
  set (w1 := mkWorld _ _ _).
  destruct (exec_enter_all k (timeout (lg w) <=? 0)%Z [] (startedServices (lg w)) w1)
    as (w' & Hex & Hcalls).
  { unfold w1. simpl. rewrite !Hins by done. by apply Hlast. }
  simpl in Hex.
  exists w'. split; [done|]. intros s. rewrite Hcalls.
  unfold w1. simpl. rewrite !stopCalls_app. simpl. lia.
Qed.

(** C7: in every run a service is stopped at most as often as it is in the
    started set, so a registered service whose goroutine has not begun is
    not stopped.  When every registered service has begun and the stop
    sequence has not: however the run goes on, no service is stopped more
    often than it is registered, and once the latch is closed every service
    has been stopped exactly as often as it is registered (once, for a
    registry without repetition); and one invocation of [Stop] is enough to
    get there, for any number of services, none included. *)
Theorem each_started_service_stopped_once t acts1 w1 :
  exec acts1 (boot t) = Some w1 →
  (∀ s, stopCalls s (trace w1) ≤ occ s (startedServices (lg w1)))
  ∧ (stopOnce (lg w1) = OnceFresh →
     Forall (λ task, begun task = true) (wg (lg w1)) →
     (∀ s, occ s (startedServices (lg w1)) = occ s (services (lg w1))) →
     (∀ acts2 w2,
        forallb lifecycle acts2 = true → exec acts2 w1 = Some w2 →
        (∀ s, stopCalls s (trace w2) ≤ occ s (services (lg w1)))
        ∧ (stopOnce (lg w2) = OnceDone →
           ∀ s, stopCalls s (trace w2) = occ s (services (lg w1))))
     ∧ ∃ w3,
         exec (stopSchedule (length (callers w1))
                 (length (startedServices (lg w1)))) w1 = Some w3
         ∧ ∀ s, stopCalls s (trace w3) = occ s (services (lg w1))).
Proof.
  intros Hrun. pose proof (reachable_Inv _ _ _ Hrun) as HI.
  split; [intros s; by apply stopCalls_le_started|].
  intros Hfresh Hbegun Hall.
  assert (snapshots (trace w1) = []) as Hnone.
  { pose proof (inv_fanouts _ HI) as H3. pose proof (inv_running _ HI) as H1.
    pose proof (pastFanOut_le_running w1). rewrite Hfresh in *. simpl in *.
    unfold fanOuts in H3. destruct (snapshots (trace w1)); simpl in *; [done|lia]. }
  assert (∀ s, stopCalls s (trace w1) = 0) as Hzero.
  { intros s. pose proof (inv_calls _ HI s) as H4. unfold fanned in H4.
    rewrite Hnone in H4. simpl in H4. lia. }
  split.
  - intros acts2 w2 Hl Hrun2.
    assert (Settled (startedServices (lg w1)) w2) as (Hb & HL & Hsn).
    { eapply Settled_exec; [|done..]. split_and!; [done..|]. by rewrite Hnone. }
    pose proof (exec_Inv _ _ _ HI Hrun2) as HI2. split.
    + intros s. rewrite <- Hall, <- HL. by apply stopCalls_le_started.
    + intros Hd s.
      destruct (fan_out_complete _ HI2 Hd) as (_ & _ & snap & Hs & _ & Hc).
      rewrite Hs in Hsn. inversion Hsn; subst. by rewrite Hc.
  - destruct (exec_stopSchedule w1 Hfresh) as (w3 & Hex & Hc).
    exists w3. split; [done|]. intros s. rewrite Hc, Hzero, Hall. lia.
Qed.

(** ** Stop before Start *)

Lemma StopStep_done_stable g c g' c' ev :
  StopStep g c g' c' ev → stopOnce g = OnceDone → stopOnce g' = OnceDone.
Proof. destruct 1; simpl; congruence. Qed.

Lemma WorldStep_done_stable w w' :
  WorldStep w w' → stopOnce (lg w) = OnceDone → stopOnce (lg w') = OnceDone.
Proof.
  destruct 1 as [s| | |i t g' t' ev Hi Ht|k c g' c' ev Hk Hc]; simpl; try done.
  - destruct Ht; simpl; eauto using StopStep_done_stable.
  - by eapply StopStep_done_stable.
Qed.

Lemma WorldStep_trace w w' : WorldStep w w' → ∃ ev, trace w' = trace w ++ ev.
Proof.
  destruct 1; simpl; eauto; exists []; by rewrite app_nil_r.
Qed.

Lemma exec_done_stable acts w w' :
  exec acts w = Some w' → stopOnce (lg w) = OnceDone → stopOnce (lg w') = OnceDone.
Proof.
  revert w. induction acts as [|a acts IH]; intros w; simpl.
  - by intros [= <-].
  - destruct (step a w) as [w1|] eqn:Hs; [|done]. intros Hrun Hd.
    apply (IH _ Hrun). eapply WorldStep_done_stable; [|done].
    by eapply step_WorldStep.
Qed.

Lemma exec_trace acts w w' :
  exec acts w = Some w' → ∃ ev, trace w' = trace w ++ ev.
Proof.
  revert w. induction acts as [|a acts IH]; intros w; simpl.
  - intros [= <-]. exists []. by rewrite app_nil_r.
  - destruct (step a w) as [w1|] eqn:Hs; [|done]. intros Hrun.
    destruct (IH _ Hrun) as [ev2 ->].
    destruct (WorldStep_trace _ _ (step_WorldStep _ _ _ Hs)) as [ev1 ->].
    exists (ev1 ++ ev2). by rewrite app_assoc.
Qed.

Lemma exec_register t (regs0 regs : list S) :
  exec (map InvokeAdd regs) (registered t regs0) = Some (registered t (regs0 ++ regs)).
Proof.
  revert regs0. induction regs as [|s regs IH]; intros regs0; simpl.
  - by rewrite app_nil_r.
  - change (mkWorld _ _ _) with (registered t (regs0 ++ [s])).
    by rewrite IH, <- app_assoc.
Qed.

(** C9: on a new group, with whatever registry, an invocation of [Stop]
    before [Start] runs to its end: it asserts the signal, fans out over the
    empty started set, so calls no [Stop], and returns.  After a later
    [Start], in every state of every run, the signal is still asserted, no
    service has been stopped, and a start goroutine whose service waits for
    the signal can return. *)
Theorem Stop_before_Start_is_safe t (regs : list S) :
  ∃ w1,
    exec (map InvokeAdd regs
            ++ [InvokeStop; ActCaller 0 Run; ActCaller 0 Run;
                ActCaller 0 Run; ActCaller 0 Run]) (boot t) = Some w1
    ∧ w1 = mkWorld (mkGroup [] true OnceDone regs [] t) [Returned]
                   [EvCancel; EvFanOut []]
    ∧ ∀ acts w2,
        exec (InvokeStart :: acts) w1 = Some w2 →
        ctxDone (lg w2) = true
        ∧ (∀ s, stopCalls s (trace w2) = 0)
        ∧ ∀ i s r,
            wg (lg w2) !! i = Some (StartTask s InStart) →
            startOf s = StartAwaitCancel r →
            step (ActWg i Run) w2
            = Some (mkWorld (setWg (<[i:=StartTask s (afterStart r)]> (wg (lg w2))) (lg w2))
                            (callers w2) (trace w2 ++ [EvStartReturned s r])).
Proof.
  eexists. split_and!; [|reflexivity|].
  - rewrite exec_app. change (boot t) with (registered (S:=S) t []).
    rewrite exec_register. simpl. by destruct (t <=? 0)%Z.
  - intros acts w2 Hrun.
    set (w1 := mkWorld _ _ _) in Hrun.
    assert (Inv w1) as HI1.
    { split; simpl; try (done || lia || by repeat constructor). }
    pose proof (exec_Inv _ _ _ HI1 Hrun) as HI2.
    pose proof (exec_done_stable _ _ _ Hrun eq_refl) as Hd.
    destruct (exec_trace _ _ _ Hrun) as [ev Htr].
    destruct (fan_out_complete _ HI2 Hd) as (_ & Hctx & snap & Hsn & _ & Hc).
    rewrite Htr in Hsn. simpl in Hsn. injection Hsn as <- _.
    split_and!; [done|done|].
    intros i s r Hi Hs. unfold step. rewrite Hi. simpl. by rewrite Hs, Hctx.
Qed.

(** ** A Stop that never returns *)

Lemma waitsFor_StopStep j s g c g' c' ev :
  StopStep g c g' c' ev → waitsFor j s c → stopOf s = StopHang →
  waitsFor j s c'.
Proof.
  intros Hs (d & ts & -> & Hj) Hh.
  inversion Hs as [| | | |d' ts' Hall|d' ts' j' t t' ev' Hj' Ht|ts']; subst.
  - apply forallb_Forall_true in Hall.
    by pose proof (Forall_lookup_1 _ _ _ _ Hall Hj).
  - exists d, (<[j':=t']> ts). split; [done|].
    destruct (decide (j' = j)) as [->|Hne].
    + rewrite Hj in Hj'. injection Hj' as <-. simpl in Ht. by rewrite Hh in Ht.
    + by rewrite list_lookup_insert_ne.
  - by exists true, ts.
Qed.

Lemma waitsFor_TaskStep j s g (t : Task) g' t' ev :
  TaskStep g t g' t' ev → waitsFor j s (callOf t) → stopOf s = StopHang →
  waitsFor j s (callOf t').
Proof.
  intros Ht Hw Hh.
  destruct Ht as [c g' c' ev Hc|x c g' c' ev Hc| | | | |x r Hr].
  - rewrite callOf_resumeHandler. by eapply waitsFor_StopStep.
  - rewrite callOf_resumeStart. by eapply waitsFor_StopStep.
  - by destruct Hw as (? & ? & ? & ?).
  - by destruct Hw as (? & ? & ? & ?).
  - by destruct Hw as (? & ? & ? & ?).
  - by destruct Hw as (? & ? & ? & ?).
  - by destruct Hw as (? & ? & ? & ?).
Qed.

Lemma waitsFor_WorldStep i j s w w' :
  WorldStep w w' → stopOf s = StopHang →
  (∃ t, wg (lg w) !! i = Some t ∧ waitsFor j s (callOf t)) →
  ∃ t, wg (lg w') !! i = Some t ∧ waitsFor j s (callOf t).
Proof.
  intros Hs Hh (t & Hi & Hw).
  destruct Hs as [x| | |i' t0 g' t' ev Hi' Ht|k c g' c' ev Hk Hc]; simpl; eauto.
  - exists t. split; [|done]. by apply lookup_app_l_Some.
  - pose proof (TaskStep_frame _ _ _ _ _ Ht) as Hwg. rewrite Hwg.
    destruct (decide (i' = i)) as [->|Hne].
    + rewrite Hi in Hi'. injection Hi' as <-. exists t'.
      split; [|by eapply waitsFor_TaskStep].
      apply list_lookup_insert_eq. by eapply lookup_lt_Some.
    + exists t. by rewrite list_lookup_insert_ne.
  - destruct (StopStep_frame _ _ _ _ _ Hc) as (-> & _). eauto.
Qed.

Lemma waitsFor_exec i j s acts w w' :
  exec acts w = Some w' → stopOf s = StopHang →
  (∃ t, wg (lg w) !! i = Some t ∧ waitsFor j s (callOf t)) →
  ∃ t, wg (lg w') !! i = Some t ∧ waitsFor j s (callOf t).
Proof.
  revert w. induction acts as [|a acts IH]; intros w; simpl.
  - by intros [= <-].
  - destruct (step a w) as [w1|] eqn:Hs; [|done]. intros Hrun Hh Hw.
    apply (IH _ Hrun Hh). eapply waitsFor_WorldStep; [|done..].
    by eapply step_WorldStep.
Qed.

Lemma Wait_blocked g i (t : Task) :
  wg g !! i = Some t → taskDone t = false → Wait g = None.
Proof.
  intros Hi Ht. destruct (Wait g) as [[]|] eqn:HW; [|done].
  apply Wait_all_done in HW. pose proof (Forall_lookup_1 _ _ _ _ HW Hi). congruence.
Qed.

Lemma waitsFor_not_done j s (t : Task) :
  waitsFor j s (callOf t) → taskDone t = false ∧ running (callOf t) = 1.
Proof.
  intros (d & ts & Hc & _). rewrite Hc. split; [|done].
  destruct t as [[]|? []]; simpl in *; congruence.
Qed.

(** With stop operations that all return, the wait of [stopAll] ends. *)
Lemma runStop_join g (pre post : list StopTask) :
  Forall (λ t, stopFinished t = true) pre →
  Forall willReturn post →
  ∃ moves ev,
    runStop moves g (AtStopWait true (pre ++ post))
    = Some (setStopOnce OnceDone g, Returned, ev).
Proof.
  revert pre. induction post as [|t post IH]; intros pre Hpre Hpost.
  - exists [Run], []. simpl. rewrite app_nil_r.
    apply forallb_Forall_true in Hpre. by rewrite Hpre.
  - apply Forall_cons in Hpost as [Ht Hpost].
    assert (∀ x, stopOf x ≠ StopHang →
              ∃ moves ev,
                runStop moves g (AtStopWait true (pre ++ StopInCall x :: post))
                = Some (setStopOnce OnceDone g, Returned, ev)) as Hcall.
    { intros x Hx.
      destruct (IH (pre ++ [StopFinished x])) as (moves & ev & Hrun); [|done|].
      { apply Forall_app. split; [done|]. by repeat constructor. }
      rewrite <- app_assoc in Hrun. simpl in Hrun.
      assert (∃ r, stepStopTask true (StopInCall x)
                   = Some (StopFinished x, [EvStopReturned x r])) as [r Hr].
      { simpl. destruct (stopOf x); [by eexists..|done]. }
      exists (Sub (length pre) :: moves), ([EvStopReturned x r] ++ ev).
      cbn [runStop]. unfold Stop, stopAll.
      rewrite list_lookup_middle by done. rewrite Hr.
      rewrite insert_app_r_alt by lia. rewrite Nat.sub_diag. simpl.
      by rewrite Hrun. }
    destruct t as [x|x|x].
    + destruct Ht as [Hf|Hx]; [done|]. simpl in Hx.
      destruct (Hcall x Hx) as (moves & ev & Hrun).
      exists (Sub (length pre) :: moves), ([EvStopCalled x] ++ ev).
      cbn [runStop]. rewrite (Stop_enter _ _ _ _ x) by (by apply list_lookup_middle).
      rewrite insert_app_r_alt by lia. rewrite Nat.sub_diag. simpl.
      by rewrite Hrun.
    + destruct Ht as [Hf|Hx]; [done|]. by apply Hcall.
    + destruct (IH (pre ++ [StopFinished x])) as (moves & ev & Hrun); [|done|].
      { apply Forall_app. split; [done|]. by repeat constructor. }
      rewrite <- app_assoc in Hrun. eauto.
Qed.

Lemma hung_forever w i (task : Task) j x :
  Inv w →
  wg (lg w) !! i = Some task →
  waitsFor j x (callOf task) →
  stopOf x = StopHang →
  ∀ acts w', exec acts w = Some w' →
    Wait (lg w') = None
    ∧ stopOnce (lg w') = OnceRunning
    ∧ ∃ task', wg (lg w') !! i = Some task' ∧ waitsFor j x (callOf task').
Proof.
  intros HI Hi Hw0 Hx acts w' Hrun.
  destruct (waitsFor_exec i j x _ _ _ Hrun Hx) as (task' & Hi' & Hw); [by eauto|].
  destruct (waitsFor_not_done _ _ _ Hw) as [Hnd Hr].
  split_and!; [by eapply Wait_blocked| |by exists task'].
  pose proof (exec_Inv _ _ _ HI Hrun) as HI'.
  pose proof (inv_running _ HI') as H1.
  pose proof (total_lookup_task running _ _ _ Hi').
  destruct (stopOnce (lg w')); simpl in *; (done || lia).
Qed.

Lemma callAt_group i w c :
  callAt (InGroup i) w = Some c ↔ ∃ task, wg (lg w) !! i = Some task ∧ callOf task = c.
Proof.
  simpl. destruct (wg (lg w) !! i) as [task|]; simpl; split.
  - intros [= <-]. by exists task.
  - by intros (? & [= <-] & <-).
  - done.
  - by intros (? & ? & _).
Qed.

Lemma waitsFor_holder_step h j s w w' :
  WorldStep w w' → stopOf s = StopHang →
  (∃ c, callAt h w = Some c ∧ waitsFor j s c) →
  ∃ c, callAt h w' = Some c ∧ waitsFor j s c.
Proof.
  intros Hs Hh (c & Hc & Hw). destruct h as [i|k].
  - apply callAt_group in Hc as (task & Hi & <-).
    destruct (waitsFor_WorldStep i j s _ _ Hs Hh) as (task' & Hi' & Hw');
      [by exists task|].
    exists (callOf task'). split; [|done]. apply callAt_group. by exists task'.
  - simpl in *.
    destruct Hs as [x| | |i' t0 g' t' ev Hi' Ht|k' c0 g' c' ev Hk' Hc']; simpl;
      eauto.
    + exists c. split; [|done]. by apply lookup_app_l_Some.
    + destruct (decide (k' = k)) as [->|Hne].
      * rewrite Hc in Hk'. injection Hk' as <-. exists c'.
        split; [|by eapply waitsFor_StopStep].
        apply list_lookup_insert_eq. by eapply lookup_lt_Some.
      * exists c. by rewrite list_lookup_insert_ne.
Qed.

Lemma waitsFor_holder_exec h j s acts w w' :
  exec acts w = Some w' → stopOf s = StopHang →
  (∃ c, callAt h w = Some c ∧ waitsFor j s c) →
  ∃ c, callAt h w' = Some c ∧ waitsFor j s c.
Proof.
  revert w. induction acts as [|a acts IH]; intros w; simpl.
  - by intros [= <-].
  - destruct (step a w) as [w1|] eqn:Hs; [|done]. intros Hrun Hh Hw.
    apply (IH _ Hrun Hh). eapply waitsFor_holder_step; [|done..].
    by eapply step_WorldStep.
Qed.

Lemma Stop_blocked g m : stopOnce g = OnceRunning → Stop m g AtDo = None.
Proof. intros Ho. simpl. rewrite Ho. by destruct m. Qed.

(** Whoever runs the stop sequence and waits for a [Stop] that never
    returns, waits for ever. *)
Lemma hung_holder_forever w h c j x :
  Inv w →
  callAt h w = Some c →
  waitsFor j x c →
  stopOf x = StopHang →
  ∀ acts w', exec acts w = Some w' →
    (∃ c', callAt h w' = Some c' ∧ waitsFor j x c')
    ∧ stopOnce (lg w') = OnceRunning
    ∧ (∀ m, Stop m (lg w') AtDo = None)
    ∧ (∀ i, h = InGroup i → Wait (lg w') = None).
Proof.
  intros HI Hc Hw0 Hx acts w' Hrun.
  destruct (waitsFor_holder_exec h j x _ _ _ Hrun Hx) as (c' & Hc' & Hw);
    [by eauto|].
  pose proof (exec_Inv _ _ _ HI Hrun) as HI'.
  pose proof (inv_running _ HI') as H1.
  assert (running c' = 1) as Hr by (by destruct Hw as (d & ts & -> & _)).
  assert (stopOnce (lg w') = OnceRunning) as Ho.
  { assert (running c' ≤ total running w') as Hle.
    { destruct h as [i|k].
      - apply callAt_group in Hc' as (task & Hi & <-).
        by eapply total_lookup_task.
      - by eapply total_lookup_caller. }
    destruct (stopOnce (lg w')); simpl in *; (done || lia). }
  split_and!; [by exists c'|done|by intros m; apply Stop_blocked|].
  intros i ->. apply callAt_group in Hc' as (task & Hi & <-).
  eapply Wait_blocked; [done|]. by apply waitsFor_not_done in Hw as [? _].
Qed.

(** C3, as the code has it: [stopAll] hands every [Stop] the one deadline
    derived from the timeout and then waits for all of them; no goroutine is
    abandoned.  Whoever runs the stop sequence -- a failed start goroutine
    or the listener of [lg.wg], or a goroutine of the program that called
    [lg.Stop()] -- and waits in [stopAll]: if a [Stop] under way never
    returns, then in every continuation of the run, deadline or not, that
    call still waits for it, the latch stays held, every other invocation of
    [lg.Stop()] is blocked at [stopOnce.Do], and [Wait] does not return when
    the call is made by a goroutine of [lg.wg]; and if every [Stop] returns,
    at the deadline at the latest, the wait can end. *)
Theorem stopAll_waits_for_every_Stop t acts0 w h d ts :
  exec acts0 (boot t) = Some w →
  callAt h w = Some (AtStopWait d ts) →
  (∀ j x, ts !! j = Some (StopInCall x) → stopOf x = StopHang →
     ∀ acts w', exec acts w = Some w' →
       (∃ c', callAt h w' = Some c' ∧ waitsFor j x c')
       ∧ stopOnce (lg w') = OnceRunning
       ∧ (∀ m, Stop m (lg w') AtDo = None)
       ∧ (∀ i, h = InGroup i → Wait (lg w') = None))
  ∧ (Forall willReturn ts →
     ∃ moves ev,
       runStop moves (lg w) (AtStopWait d ts)
       = Some (setStopOnce OnceDone (lg w), Returned, ev)).
Proof.
  intros Hrun0 Hc. pose proof (reachable_Inv _ _ _ Hrun0) as HI. split.
  - intros j x Hj Hx. eapply hung_holder_forever; [done..| |done].
    by exists d, ts.
  - intros Hall. destruct (runStop_join (lg w) [] ts) as (moves & ev & Hjoin);
      [done..|]. simpl in Hjoin. destruct d; [by exists moves, ev|].
    exists (Deadline :: moves), ([] ++ ev). simpl in *. by rewrite Hjoin.
Qed.

(** ** Services that complete by themselves *)

Lemma Unprompted_step (a : Action) w w' :
  Unprompted w → untriggered a = true → step a w = Some w' → Unprompted w'.
Proof.
  intros (H0 & Hctx & Hfresh & Hcs & Hcalm) Hu.
  destruct a as [s| | |i m|k m]; simpl in Hu; try done.
  - unfold step. destruct (wg (lg w) !! i) as [t|] eqn:Hi; [|done].
    pose proof (Forall_lookup_1 _ _ _ _ Hcalm Hi) as Ht.
    assert (i ≠ 0 ∨ t = SignalTask Select) as Hi0.
    { destruct i; [right; congruence|left; lia]. }
    destruct t as [[]|s pc]; simpl in Ht; try done.
    + simpl. rewrite Hctx. by destruct m.
    + destruct Ht as [Hs Hpc], Hi0 as [Hi0|]; [|done].
      destruct pc; try done; simpl; destruct m; try done.
      * intros [= <-]. split_and!; simpl; try done.
        -- by rewrite list_lookup_insert_ne.
        -- by apply Forall_insert.
      * intros [= <-]. split_and!; simpl; try done.
        -- by rewrite list_lookup_insert_ne.
        -- by apply Forall_insert.
      * rewrite Hs. intros [= <-]. split_and!; simpl; try done.
        -- by rewrite list_lookup_insert_ne.
        -- by apply Forall_insert.
  - unfold step. by rewrite Hcs.
Qed.

Lemma Unprompted_exec acts w w' :
  Unprompted w → forallb untriggered acts = true → exec acts w = Some w' →
  Unprompted w'.
Proof.
  revert w. induction acts as [|a acts IH]; intros w HU; simpl.
  - by intros _ [= <-].
  - intros [Ha Hacts]%andb_prop. destruct (step a w) as [w1|] eqn:Hs; [|done].
    apply IH; [|done]. by eapply Unprompted_step.
Qed.

(** C5 on the code: when every registered service's [Start] returns [nil]
    by itself and the program neither calls [lg.Stop()] nor receives SIGINT
    or SIGTERM, then in every state of every run after [lg.Start()] the
    listener goroutine is still in its [select], the signal is not asserted,
    and [Wait] does not return -- also when every start goroutine has
    finished. *)
Theorem Wait_blocks_after_natural_completion t (regs : list S) acts w :
  Forall (λ s, startOf s = StartReturn None) regs →
  forallb untriggered acts = true →
  exec (map InvokeAdd regs ++ InvokeStart :: acts) (boot t) = Some w →
  Wait (lg w) = None
  ∧ wg (lg w) !! 0 = Some (SignalTask Select)
  ∧ ctxDone (lg w) = false.
Proof.
  intros Hregs Hacts. rewrite exec_app.
  change (boot t) with (registered (S:=S) t []). rewrite exec_register.
  simpl. intros Hrun.
  assert (Unprompted w) as (H0 & Hctx & _).
  { eapply Unprompted_exec; [|exact Hacts|exact Hrun].
    split_and!; simpl; try done. constructor; [done|].
    clear Hrun. induction Hregs; simpl; constructor; by auto. }
  split_and!; [|done..]. by eapply Wait_blocked.
Qed.

(** ** The shared signal *)

Lemma StopStep_ctx_stable g c g' c' ev :
  StopStep g c g' c' ev → ctxDone g = true → ctxDone g' = true.
Proof. by destruct 1. Qed.

Lemma WorldStep_ctx_stable w w' :
  WorldStep w w' → ctxDone (lg w) = true → ctxDone (lg w') = true.
Proof.
  destruct 1 as [s| | |i t g' t' ev Hi Ht|k c g' c' ev Hk Hc]; simpl; try done.
  - destruct Ht; simpl; eauto using StopStep_ctx_stable.
  - by eapply StopStep_ctx_stable.
Qed.

(** The shared cancellation signal is never taken back: once [lg.cancel()]
    has run, [lg.ctx] is done in every later state of the run, whatever the
    program and the goroutines do. *)
Theorem ctx_stays_done acts w w' :
  exec acts w = Some w' → ctxDone (lg w) = true → ctxDone (lg w') = true.
Proof.
  revert w. induction acts as [|a acts IH]; intros w; simpl.
  - by intros [= <-].
  - destruct (step a w) as [w1|] eqn:Hs; [|done]. intros Hrun Hd.
    apply (IH _ Hrun). eapply WorldStep_ctx_stable; [|done].
    by eapply step_WorldStep.
Qed.

(** The signal is asserted before the fan-out: in every state of every run,
    [stopAll] has not run more often than [lg.cancel()], and if [stopAll]
    has run, or the [Stop] of any service has been called, [lg.ctx] is
    done. *)
Theorem cancel_precedes_fan_out t acts w s :
  exec acts (boot t) = Some w →
  fanOuts (trace w) ≤ cancels (trace w)
  ∧ (0 < fanOuts (trace w) → ctxDone (lg w) = true)
  ∧ (0 < stopCalls s (trace w) → ctxDone (lg w) = true).
Proof.
  intros Hrun. pose proof (reachable_Inv _ _ _ Hrun) as [_ H2 H3 H4 H5 _ _ _ _].
  assert (total pastFanOut w ≤ total pastCancel w) as Hle.
  { apply total_le. intros []; simpl; lia. }
  assert (0 < fanned s (trace w) → 0 < fanOuts (trace w)) as Hfan.
  { unfold fanned, fanOuts. destruct (snapshots (trace w)); simpl; lia. }
  specialize (H4 s). split_and!; [lia|intros ?; apply H5; lia|].
  intros Hs. apply H5. lia.
Qed.

(** ** Starts that succeed *)

Lemma Untouched_step (a : Action) w w' :
  Untouched w → unsolicited a = true → step a w = Some w' →
  Untouched w' ∨ 0 < startFailures (trace w').
Proof.
  intros (Hctx & Hfresh & Hcs & Hidle) Hu.
  destruct a as [s| | |i m|k m]; simpl in Hu; try done.
  - intros [= <-]. by left.
  - intros [= <-]. left. split_and!; simpl; try done.
    apply Forall_app. split; [done|]. constructor; [done|].
    clear. induction (services (lg w)); simpl; by constructor.
  - unfold step. destruct (wg (lg w) !! i) as [t|] eqn:Hi; [|done].
    pose proof (Forall_lookup_1 _ _ _ _ Hidle Hi) as Ht.
    destruct t as [[]|s pc]; simpl in Ht; try done.
    + simpl. rewrite Hctx. by destruct m.
    + destruct pc; try done; simpl; destruct m; try done.
      * intros [= <-]. left. split_and!; simpl; try done. by apply Forall_insert.
      * intros [= <-]. left. split_and!; simpl; try done. by apply Forall_insert.
      * rewrite Hctx.
        destruct (startOf s) as [[e|]|r|]; try done; intros [= <-]; simpl.
        -- right. rewrite startFailures_app. simpl. lia.
        -- left. split_and!; simpl; try done. by apply Forall_insert.
  - unfold step. by rewrite Hcs.
Qed.

Lemma startFailures_exec acts w w' :
  exec acts w = Some w' → startFailures (trace w) ≤ startFailures (trace w').
Proof.
  intros Hrun. destruct (exec_trace _ _ _ Hrun) as [ev ->].
  rewrite startFailures_app. lia.
Qed.

Lemma Untouched_exec acts w w' :
  Untouched w → forallb unsolicited acts = true → exec acts w = Some w' →
  Untouched w' ∨ 0 < startFailures (trace w').
Proof.
  revert w. induction acts as [|a acts IH]; intros w HU; simpl.
  - intros _ [= <-]. by left.
  - intros [Ha Hacts]%andb_prop. destruct (step a w) as [w1|] eqn:Hs; [|done].
    intros Hrun. destruct (Untouched_step _ _ _ HU Ha Hs) as [HU1|Hf].
    + by eapply IH.
    + right. pose proof (startFailures_exec _ _ _ Hrun). lia.
Qed.

(** Start goroutines that return success do not trigger [Stop]: in a run
    without a call of [lg.Stop()] by the program and without SIGINT or
    SIGTERM, as long as no start has returned a failure the latch is fresh,
    the signal is not asserted, [lg.cancel()] has not run and no service has
    been stopped. *)
Theorem successful_starts_do_not_stop t acts w :
  exec acts (boot t) = Some w →
  forallb unsolicited acts = true →
  startFailures (trace w) = 0 →
  stopOnce (lg w) = OnceFresh
  ∧ ctxDone (lg w) = false
  ∧ cancels (trace w) = 0
  ∧ ∀ s, stopCalls s (trace w) = 0.
Proof.
  intros Hrun Hacts Hnone.
  destruct (Untouched_exec acts (boot t) w) as [(Hctx & Hfresh & _)|Hf];
    [by split_and!|done|done| |lia].
  pose proof (reachable_Inv _ _ _ Hrun) as [H1 H2 H3 H4 _ _ _ _ _].
  pose proof (pastCancel_le_running w). pose proof (pastFanOut_le_running w).
  rewrite Hfresh in *. simpl in *.
  split_and!; [done|done|lia|]. intros s. specialize (H4 s).
  unfold fanOuts in H3. unfold fanned in H4.
  destruct (snapshots (trace w)); simpl in *; lia.
Qed.

(** ** Every step, seen from the calls of Stop *)

(** A step of the program is a statement of one call of [lg.Stop()], or it
    leaves every count over these calls as it was. *)
Lemma WorldStep_cases w w' :
  WorldStep w w' →
  (∃ c c' g' ev,
     StopStep (lg w) c g' c' ev
     ∧ trace w' = trace w ++ ev
     ∧ (∀ f, total f w' + f c = total f w + f c')
     ∧ stopOnce (lg w') = stopOnce g'
     ∧ ctxDone (lg w') = ctxDone g')
  ∨ (∃ ev,
       trace w' = trace w ++ ev
       ∧ (∀ s, stopCalls s ev = 0) ∧ (∀ s, stopReturns s ev = 0)
       ∧ stopOnce (lg w') = stopOnce (lg w)
       ∧ ctxDone (lg w') = ctxDone (lg w)
       ∧ ∀ f, f AtDo = 0 → f Returned = 0 → total f w' = total f w).
Proof.
  destruct 1 as [s| | |i t g' t' ev Hi Ht|k c g' c' ev Hk Hc].
  - right. exists []. simpl. rewrite app_nil_r. split_and!; done.
  - right. exists []. simpl. rewrite app_nil_r. split_and!; try done.
    intros f _ Hr. unfold total. simpl. rewrite sum_list_with_app. simpl.
    rewrite Hr, sum_list_with_launched; [lia|done].
  - right. exists []. simpl. rewrite app_nil_r. split_and!; try done.
    intros f Ha _. unfold total. simpl. rewrite sum_list_with_app. simpl. lia.
  - destruct Ht as [c g' c' ev Hc|s c g' c' ev Hc|Hd| |s|s|s r Hr].
    + left. exists c, c', g', ev. split_and!; try done. intros f.
      pose proof (StopStep_frame _ _ _ _ _ Hc) as (Hwg & _).
      rewrite <- (callOf_resumeHandler c') at 2.
      by apply (total_task f w i (SignalTask (OnSignal c))).
    + left. exists c, c', g', ev. split_and!; try done. intros f.
      pose proof (StopStep_frame _ _ _ _ _ Hc) as (Hwg & _).
      rewrite <- (callOf_resumeStart s c') at 2.
      by apply (total_task f w i (StartTask s (OnFailure c))).
    + right. exists []. split_and!; try done. intros f Ha Hr.
      pose proof (total_task f w i _ (SignalTask HandlerDone) (lg w) _
                    (trace w ++ []) Hi eq_refl eq_refl).
      simpl in *. lia.
    + right. exists []. split_and!; try done. intros f Ha Hr.
      pose proof (total_task f w i _ (SignalTask (OnSignal AtDo)) (lg w) _
                    (trace w ++ []) Hi eq_refl eq_refl).
      simpl in *. lia.
    + right. exists []. split_and!; try done. intros f Ha Hr.
      pose proof (total_task f w i _ (StartTask s CallStart)
                    (setStartedServices (startedServices (lg w) ++ [s]) (lg w))
                    _ (trace w ++ []) Hi eq_refl eq_refl).
      simpl in *. lia.
    + right. exists [EvStartCalled s]. split_and!; try done. intros f Ha Hr.
      pose proof (total_task f w i _ (StartTask s InStart) (lg w) _
                    (trace w ++ [EvStartCalled s]) Hi eq_refl eq_refl).
      simpl in *. lia.
    + right. exists [EvStartReturned s r]. split_and!; try done. intros f Ha Hr'.
      pose proof (total_task f w i _ (StartTask s (afterStart r)) (lg w) _
                    (trace w ++ [EvStartReturned s r]) Hi eq_refl eq_refl).
      destruct r; simpl in *; lia.
  - left. exists c, c', g', ev. split_and!; try done. intros f.
    pose proof (StopStep_frame _ _ _ _ _ Hc) as (Hwg & _).
    by apply total_caller.
Qed.

(** ** Stop returns after the services' Stop *)

Lemma stopReturns_app s tr ev :
  stopReturns s (tr ++ ev) = stopReturns s tr + stopReturns s ev.
Proof. apply sum_list_with_app. Qed.

Lemma inCall_fan_out s d (l : list S) :
  inCall s (AtStopWait d (map StopPending l)) = 0.
Proof. simpl. induction l; simpl; [done|lia]. Qed.

Lemma inCall_finished s d ts :
  forallb stopFinished ts = true → inCall s (AtStopWait d ts) = 0.
Proof.
  simpl. induction ts as [|t ts IH]; simpl; [done|].
  intros [Ht Hts]%andb_prop. destruct t; try done. simpl. auto.
Qed.

Lemma StopStep_in_call s g c g' c' ev :
  StopStep g c g' c' ev →
  stopCalls s ev + inCall s c = stopReturns s ev + inCall s c'.
Proof.
  destruct 1 as [Ho|Ho| | |d ts Hall|d ts j t t' ev Hj Ht|ts]; simpl; try done.
  - pose proof (inCall_fan_out s true (startedServices g)) as H0. simpl in H0. lia.
  - pose proof (inCall_finished s d ts Hall) as H0. simpl in H0. lia.
  - pose proof (sum_list_with_insert (isInCall s) ts j t t' Hj).
    destruct t as [x|x|x]; simpl in Ht; repeat case_match; simplify_eq/=; lia.
Qed.

Lemma in_call_zero s w : total running w = 0 → total (inCall s) w = 0.
Proof.
  unfold total. intros Hz.
  assert (∀ cs : list StopCall,
            sum_list_with running cs = 0 → sum_list_with (inCall s) cs = 0) as Hl.
  { induction cs as [|c cs IH]; simpl; [done|]. destruct c; simpl; try lia; auto. }
  assert (∀ wl : list Task,
            sum_list_with (λ t, running (callOf t)) wl = 0 →
            sum_list_with (λ t, inCall s (callOf t)) wl = 0) as Ht.
  { induction wl as [|c wl IH]; simpl; [done|].
    destruct (callOf c); simpl; try lia; auto. }
  rewrite Hl, Ht; lia.
Qed.

Lemma in_call_step s w w' :
  WorldStep w w' →
  stopCalls s (trace w) = stopReturns s (trace w) + total (inCall s) w →
  stopCalls s (trace w') = stopReturns s (trace w') + total (inCall s) w'.
Proof.
  intros Hs Hw. destruct (WorldStep_cases _ _ Hs)
    as [(c & c' & g' & ev & Hc & -> & Htot & _)|(ev & -> & Hsc & Hsr & _ & _ & Htot)].
  - rewrite stopCalls_app, stopReturns_app.
    pose proof (StopStep_in_call s _ _ _ _ _ Hc). pose proof (Htot (inCall s)). lia.
  - rewrite stopCalls_app, stopReturns_app, Hsc, Hsr, Htot; [lia|done..].
Qed.

Lemma in_call_exec s acts w w' :
  exec acts w = Some w' →
  stopCalls s (trace w) = stopReturns s (trace w) + total (inCall s) w →
  stopCalls s (trace w') = stopReturns s (trace w') + total (inCall s) w'.
Proof.
  revert w. induction acts as [|a acts IH]; intros w; simpl.
  - by intros [= <-].
  - destruct (step a w) as [w1|] eqn:Hs; [|done]. intros Hrun Hw.
    apply (IH _ Hrun). eapply in_call_step; [|done]. by eapply step_WorldStep.
Qed.

(** [Stop] is synchronous.  In every run a [Stop] of a service has returned
    no more often than it was called; and once an invocation of [lg.Stop()]
    has returned, or the latch is closed, every [Stop] that the fan-out
    called has returned: nothing of the stop sequence is left running in the
    background. *)
Theorem Stop_returns_after_every_service_Stop t acts w s :
  exec acts (boot t) = Some w →
  stopReturns s (trace w) ≤ stopCalls s (trace w)
  ∧ ((∃ k, callers w !! k = Some Returned) ∨ stopOnce (lg w) = OnceDone →
     stopReturns s (trace w) = stopCalls s (trace w)).
Proof.
  intros Hrun. pose proof (reachable_Inv _ _ _ Hrun) as HI.
  pose proof (in_call_exec s _ _ _ Hrun eq_refl) as Hin.
  split; [lia|]. intros Hret.
  assert (stopOnce (lg w) = OnceDone) as Hd.
  { destruct Hret as [[k Hk]|Hd]; [|done].
    by eapply (inv_returned _ HI), lookup_returned. }
  pose proof (inv_running _ HI) as H1. rewrite Hd in H1. simpl in H1.
  rewrite (in_call_zero s w H1) in Hin. lia.
Qed.

(** ** Wait and the listener *)

Lemma StopStep_returned_done g c g' c' ev :
  StopStep g c g' c' ev → c' = Returned → stopOnce g' = OnceDone.
Proof. by destruct 1. Qed.

Lemma TaskStep_listener g pc g' (t' : Task) ev :
  TaskStep g (SignalTask pc) g' t' ev → ∃ pc', t' = SignalTask pc'.
Proof. inversion 1; subst; eauto. Qed.

Lemma TaskStep_handler_done g (t : Task) g' ev :
  TaskStep g t g' (SignalTask HandlerDone) ev →
  t = SignalTask HandlerDone ∨ ctxDone g' = true ∨ stopOnce g' = OnceDone.
Proof.
  inversion 1 as [c g1 c' ev1 Hc| | | | | |]; subst; auto.
  right. right. eapply StopStep_returned_done; [done|]. by destruct c'.
Qed.

Lemma Listening_step w w' :
  Inv w' → Listening w → WorldStep w w' → Listening w'.
Proof.
  intros HI' [Hhead Hdone] Hs.
  pose proof (WorldStep_ctx_stable _ _ Hs) as Hmono.
  assert (Forall (λ t, t = SignalTask HandlerDone → ctxDone (lg w') = true)
            (wg (lg w))) as Hdone'.
  { eapply Forall_impl; [exact Hdone|]. naive_solver. }
  destruct Hs as [s| | |i t g' t' ev Hi Ht|k c g' c' ev Hk Hc]; simpl in *.
  - done.
  - split.
    + right. destruct Hhead as [->|[pc Hpc]]; [by eexists|].
      exists pc. by apply lookup_app_l_Some.
    + apply Forall_app. split; [done|]. constructor; [done|].
      clear. induction (services (lg w)); simpl; by constructor.
  - done.
  - pose proof (TaskStep_frame _ _ _ _ _ Ht) as Hwg. rewrite Hwg.
    unfold Listening. simpl. split.
    + right. destruct Hhead as [Hnil|[pc Hpc]]; [by rewrite Hnil in Hi|].
      destruct i as [|i].
      * rewrite Hpc in Hi. injection Hi as <-.
        destruct (TaskStep_listener _ _ _ _ _ Ht) as [pc' ->].
        exists pc'. apply list_lookup_insert_eq. by eapply lookup_lt_Some.
      * exists pc. by rewrite list_lookup_insert_ne.
    + apply Forall_insert; [done|]. intros ->.
      destruct (TaskStep_handler_done _ _ _ _ Ht) as [->|[Hctx|Hd]].
      * by apply (Forall_lookup_1 _ _ _ _ Hdone' Hi).
      * done.
      * by destruct (fan_out_complete _ HI' Hd) as (_ & ? & _).
  - destruct (StopStep_frame _ _ _ _ _ Hc) as (Hwg & _).
    unfold Listening. simpl. by rewrite Hwg.
Qed.

Lemma reachable_Listening t acts w :
  exec acts (boot t) = Some w → Listening w.
Proof.
  assert (∀ acts w0 w, Inv w0 → Listening w0 → exec acts w0 = Some w →
            Listening w) as Hgen.
  { clear. induction acts as [|a acts IH]; intros w0 w HI HL; simpl.
    - by intros [= <-].
    - destruct (step a w0) as [w1|] eqn:Hs; [|done].
      apply step_WorldStep in Hs. pose proof (Inv_step _ _ HI Hs) as HI1.
      apply IH; [done|]. by eapply Listening_step. }
  apply Hgen; [apply Inv_boot|]. split; [by left|constructor].
Qed.

(** Once [Start] has launched its goroutines, [Wait] returns only after
    [lg.cancel()] has run: the listener is one of the goroutines [Wait]
    waits for, and it finishes only when the signal is asserted.  So [Wait]
    returns only after some invocation of [lg.Stop()], whether by a failed
    start, by SIGINT or SIGTERM, or by the program. *)
Theorem Wait_returns_only_after_cancel t acts w :
  exec acts (boot t) = Some w →
  wg (lg w) ≠ [] →
  Wait (lg w) = Some () →
  ctxDone (lg w) = true ∧ cancels (trace w) = 1.
Proof.
  intros Hrun Hne HW. pose proof (reachable_Inv _ _ _ Hrun) as HI.
  destruct (reachable_Listening _ _ _ Hrun) as [[Hnil|[pc Hpc]] Hdone]; [done|].
  apply Wait_all_done in HW.
  pose proof (Forall_lookup_1 _ _ _ _ HW Hpc) as Hpcd.
  assert (ctxDone (lg w) = true) as Hctx.
  { apply (Forall_lookup_1 _ _ _ _ Hdone Hpc). by destruct pc. }
  split; [done|]. apply (inv_ctx _ HI) in Hctx.
  pose proof (inv_cancels _ HI). pose proof (inv_running _ HI).
  pose proof (pastCancel_le_running w).
  destruct (stopOnce (lg w)); simpl in *; lia.
Qed.

(** ** Who is stopped is settled by the fan-out *)

Lemma fanOuts_le_one w : Inv w → fanOuts (trace w) ≤ 1.
Proof.
  intros HI. pose proof (inv_fanouts _ HI). pose proof (inv_running _ HI).
  pose proof (pastFanOut_le_running w).
  destruct (stopOnce (lg w)); simpl in *; lia.
Qed.

(** Once [stopAll] has read the started services, the services that are
    stopped are settled: however the run goes on, no second fan-out happens
    and [s.Stop] is called at most as often as [s] was in the list read.  A
    service whose goroutine appends it to [lg.startedServices] only later is
    never stopped, though its [Start] is still called. *)
Theorem fan_out_settles_who_is_stopped t acts w snap acts' w' s :
  exec acts (boot t) = Some w →
  snapshots (trace w) = [snap] →
  exec acts' w = Some w' →
  snapshots (trace w') = [snap] ∧ stopCalls s (trace w') ≤ occ s snap.
Proof.
  intros Hrun Hsnap Hrun'. pose proof (reachable_Inv _ _ _ Hrun) as HI.
  pose proof (exec_Inv _ _ _ HI Hrun') as HI'.
  destruct (exec_trace _ _ _ Hrun') as [ev Htr].
  pose proof (fanOuts_le_one _ HI') as Hone. unfold fanOuts in Hone.
  pose proof (inv_calls _ HI' s) as Hcalls. unfold fanned in Hcalls.
  rewrite Htr, snapshots_app, Hsnap in Hone, Hcalls |- *.
  destruct (snapshots ev); simpl in *; [|lia]. split; [done|lia].
Qed.

(** ** Services run as they are registered *)

Lemma startCalls_app s tr ev :
  startCalls s (tr ++ ev) = startCalls s tr + startCalls s ev.
Proof. apply sum_list_with_app. Qed.

Lemma StopStep_startCalls s g c g' c' ev :
  StopStep g c g' c' ev → startCalls s ev = 0.
Proof.
  destruct 1 as [| | | | |d ts j t t' ev Hj Ht|]; simpl; try done.
  destruct t; simpl in Ht; repeat case_match; by simplify_eq/=.
Qed.

Lemma TaskStep_started s g (t : Task) g' t' ev :
  TaskStep g t g' t' ev →
  isStartOf s t' = isStartOf s t
  ∧ startCalls s ev + called s t = called s t'.
Proof.
  destruct 1 as [c g' c' ev Hc|x c g' c' ev Hc| | | | |x r Hr]; simpl;
    try (split; (done || lia)).
  - split; [done|]. by rewrite (StopStep_startCalls s _ _ _ _ _ Hc).
  - rewrite (StopStep_startCalls s _ _ _ _ _ Hc). by destruct c'.
  - split; [done|]. destruct r; simpl; lia.
Qed.

Lemma launched_sum s (l : list S) :
  sum_list_with (isStartOf s) (map (λ srvc, StartTask srvc TrackStarted) l) = occ s l.
Proof. induction l; simpl; [done|]. unfold occ in *. simpl. lia. Qed.

Lemma started_step s n regs (a : Action) w w' :
  afterRegistration a = true →
  step a w = Some w' →
  services (lg w) = regs →
  sum_list_with (isStartOf s) (wg (lg w)) = n * occ s regs →
  startCalls s (trace w) = sum_list_with (called s) (wg (lg w)) →
  services (lg w') = regs
  ∧ sum_list_with (isStartOf s) (wg (lg w')) = (n + starts [a]) * occ s regs
  ∧ startCalls s (trace w') = sum_list_with (called s) (wg (lg w')).
Proof.
  intros Ha Hs Hregs Hsum Hcalls.
  pose proof (step_services _ _ _ Hs) as Hsv.
  destruct a as [x| | |i m|k m]; simpl in Ha; try done;
    simpl in Hsv; rewrite app_nil_r in Hsv; (split; [congruence|]);
    unfold step in Hs.
  - injection Hs as <-. simpl. rewrite !sum_list_with_app. simpl.
    rewrite launched_sum, sum_list_with_launched, Hsum, Hcalls, Hregs; [lia|done].
  - injection Hs as <-. simpl. split; [lia|done].
  - destruct (wg (lg w) !! i) as [t|] eqn:Hi; [|done].
    destruct (stepTask m (lg w) t) as [[[g' t'] ev]|] eqn:Ht; [|done].
    injection Hs as <-. simpl. apply stepTask_TaskStep in Ht.
    pose proof (TaskStep_frame _ _ _ _ _ Ht) as Hwg. rewrite Hwg.
    destruct (TaskStep_started s _ _ _ _ _ Ht) as [Hsame Hcalled].
    pose proof (sum_list_with_insert (isStartOf s) _ _ _ t' Hi).
    pose proof (sum_list_with_insert (called s) _ _ _ t' Hi).
    rewrite startCalls_app. split; lia.
  - destruct (callers w !! k) as [c|] eqn:Hk; [|done].
    destruct (Stop m (lg w) c) as [[[g' c'] ev]|] eqn:Hc; [|done].
    injection Hs as <-. simpl. apply Stop_StopStep in Hc.
    destruct (StopStep_frame _ _ _ _ _ Hc) as (-> & _).
    rewrite startCalls_app, (StopStep_startCalls s _ _ _ _ _ Hc). split; lia.
Qed.

Lemma started_exec s n regs acts w w' :
  forallb afterRegistration acts = true →
  exec acts w = Some w' →
  services (lg w) = regs →
  sum_list_with (isStartOf s) (wg (lg w)) = n * occ s regs →
  startCalls s (trace w) = sum_list_with (called s) (wg (lg w)) →
  services (lg w') = regs
  ∧ sum_list_with (isStartOf s) (wg (lg w')) = (n + starts acts) * occ s regs
  ∧ startCalls s (trace w') = sum_list_with (called s) (wg (lg w')).
Proof.
  revert n w. induction acts as [|a acts IH]; intros n w; simpl.
  - intros _ [= <-] ? ? ?. by rewrite Nat.add_0_r.
  - intros [Ha Hacts]%andb_prop. destruct (step a w) as [w1|] eqn:Hs; [|done].
    intros Hrun Hregs Hsum Hcalls.
    destruct (started_step s n regs a w w1 Ha Hs Hregs Hsum Hcalls)
      as (Hregs1 & Hsum1 & Hcalls1).
    destruct (IH _ _ Hacts Hrun Hregs1 Hsum1 Hcalls1) as (? & Hsum' & ?).
    split_and!; try done. rewrite Hsum'. simpl. f_equal. lia.
Qed.

Lemma tracked_le_isStartOf s wl :
  sum_list_with (called s) wl ≤ sum_list_with (tracked s) wl
  ∧ sum_list_with (tracked s) wl ≤ sum_list_with (isStartOf s) wl
  ∧ (Forall (λ t, begun t = true) wl →
     sum_list_with (tracked s) wl = sum_list_with (isStartOf s) wl).
Proof.
  split_and!.
  - apply sum_list_with_le. intros [pc|x []]; simpl; lia.
  - apply sum_list_with_le. intros [pc|x []]; simpl; lia.
  - induction 1 as [|t wl Ht _ IH]; simpl; [done|]. rewrite IH. f_equal.
    by destruct t as [pc|x []].
Qed.

(** A program registers [regs] and then calls [lg.Start()], [lg.Stop()] and
    lets the goroutines run, in any order.  Then the registry is [regs]; a
    service's [Start] is entered only after the service was appended to
    [lg.startedServices], and its [Stop] is called only then, each at most
    as often as it was appended; it is appended at most once per
    registration and call of [lg.Start()], and exactly so often once every
    goroutine has begun.  So a service that is not registered is never
    started or stopped, one call of [lg.Start()] starts each service at most
    once per registration, and a second call starts all of them again. *)
Theorem services_run_as_registered t regs acts w s :
  exec (map InvokeAdd regs ++ acts) (boot t) = Some w →
  forallb afterRegistration acts = true →
  services (lg w) = regs
  ∧ startCalls s (trace w) ≤ occ s (startedServices (lg w))
  ∧ stopCalls s (trace w) ≤ occ s (startedServices (lg w))
  ∧ occ s (startedServices (lg w)) ≤ starts acts * occ s regs
  ∧ (Forall (λ task, begun task = true) (wg (lg w)) →
     occ s (startedServices (lg w)) = starts acts * occ s regs).
Proof.
  intros Hrun Hacts. pose proof (reachable_Inv _ _ _ Hrun) as HI.
  rewrite exec_app in Hrun. change (boot t) with (registered (S:=S) t []) in Hrun.
  rewrite exec_register in Hrun. simpl in Hrun.
  destruct (started_exec s 0 regs acts _ w Hacts Hrun) as (Hregs & Hsum & Hcalls);
    [done..|].
  destruct (tracked_le_isStartOf s (wg (lg w))) as (Hct & Hti & Hall).
  pose proof (inv_tracked _ HI s) as Htr.
  split_and!; [done|lia|by apply stopCalls_le_started|lia|].
  intros Hb. rewrite Htr, (Hall Hb). lia.
Qed.

(** ** The services the goroutines hold *)

Lemma stepStopTask_target d (t t' : StopTask) ev :
  stepStopTask d t = Some (t', ev) → stopTarget t' = stopTarget t.
Proof. destruct t; simpl; intros; repeat case_match; by simplify_eq/=. Qed.

Lemma StopStep_known (P : S → Prop) g c g' c' ev :
  StopStep g c g' c' ev →
  callKnown P c → Forall P (startedServices g) →
  callKnown P c'.
Proof.
  destruct 1 as [| | | | |d ts j t t' ev Hj Ht|]; simpl; try done.
  - intros _ Hst. induction Hst; simpl; by constructor.
  - intros Hts _. apply Forall_insert; [done|].
    rewrite (stepStopTask_target _ _ _ _ Ht).
    by apply (Forall_lookup_1 _ _ _ _ Hts Hj).
Qed.

Lemma TaskStep_known (P : S → Prop) g (t : Task) g' t' ev :
  TaskStep g t g' t' ev →
  taskKnown P t → Forall P (startedServices g) →
  taskKnown P t' ∧ Forall P (startedServices g').
Proof.
  intros Ht [Hc Hk] Hst.
  destruct Ht as [c g' c' ev Hs|x c g' c' ev Hs| | |x|x|x r Hr]; simpl in *.
  - pose proof (StopStep_known P _ _ _ _ _ Hs Hc Hst) as Hc'.
    destruct (StopStep_frame _ _ _ _ _ Hs) as (_ & _ & -> & _).
    split; [|done]. split; [by rewrite callOf_resumeHandler|]. by destruct c'.
  - pose proof (StopStep_known P _ _ _ _ _ Hs Hc Hst) as Hc'.
    destruct (StopStep_frame _ _ _ _ _ Hs) as (_ & _ & -> & _).
    split; [|done]. split; [by rewrite callOf_resumeStart|].
    split; [apply Hk|]. by destruct c'.
  - done.
  - done.
  - split; [by split; [|split; [apply Hk|]]|].
    apply Forall_app. split; [done|]. constructor; [apply Hk|constructor].
  - split; [|done]. by split; [|split; [apply Hk|]].
  - split; [|done]. split; [by destruct r|]. split; [apply Hk|by destruct r].
Qed.

Lemma Known_step (P : S → Prop) (a : Action) w w' :
  afterRegistration a = true → step a w = Some w' → Known P w → Known P w'.
Proof.
  intros Ha Hs (Hsv & Hst & Hwg & Hcs).
  destruct a as [x| | |i m|k m]; simpl in Ha; try done; unfold step in Hs.
  - injection Hs as <-. split_and!; simpl; try done.
    apply Forall_app. split; [done|]. constructor; [done|].
    clear -Hsv. induction Hsv; simpl; constructor; [|done].
    by split; [|split].
  - injection Hs as <-. split_and!; simpl; try done.
    apply Forall_app. split; [done|]. by constructor.
  - destruct (wg (lg w) !! i) as [t|] eqn:Hi; [|done].
    destruct (stepTask m (lg w) t) as [[[g' t'] ev]|] eqn:Ht; [|done].
    injection Hs as <-. apply stepTask_TaskStep in Ht.
    pose proof (TaskStep_frame _ _ _ _ _ Ht) as Hwg'.
    pose proof (TaskStep_services _ _ _ _ _ Ht) as Hsv'.
    destruct (TaskStep_known P _ _ _ _ _ Ht) as [Ht' Hst']; [|done|].
    { by apply (Forall_lookup_1 _ _ _ _ Hwg Hi). }
    split_and!; simpl; [by rewrite Hsv'|done| |done].
    rewrite Hwg'. by apply Forall_insert.
  - destruct (callers w !! k) as [c|] eqn:Hk; [|done].
    destruct (Stop m (lg w) c) as [[[g' c'] ev]|] eqn:Hc; [|done].
    injection Hs as <-. apply Stop_StopStep in Hc.
    destruct (StopStep_frame _ _ _ _ _ Hc) as (Hwg' & Hsv' & Hst' & _).
    split_and!; simpl; [by rewrite Hsv'|by rewrite Hst'|by rewrite Hwg'|].
    apply Forall_insert; [done|].
    eapply StopStep_known; [done| |done].
    by apply (Forall_lookup_1 _ _ _ _ Hcs Hk).
Qed.

Lemma Known_exec (P : S → Prop) acts w w' :
  forallb afterRegistration acts = true → exec acts w = Some w' →
  Known P w → Known P w'.
Proof.
  revert w. induction acts as [|a acts IH]; intros w; simpl.
  - by intros _ [= <-].
  - intros [Ha Hacts]%andb_prop. destruct (step a w) as [w1|] eqn:Hs; [|done].
    intros Hrun HK. apply (IH _ Hacts Hrun). by eapply Known_step.
Qed.

Lemma Known_registered (P : S → Prop) t regs :
  Forall P regs → Known P (registered t regs).
Proof. intros HP. split_and!; simpl; by try constructor. Qed.

(** ** One goroutine at a time *)

Lemma Stop_setWg m wl g c :
  Stop m (setWg wl g) c
  = match Stop m g c with
    | Some (g', c', ev) => Some (setWg wl g', c', ev)
    | None => None
    end.
Proof.
  destruct c as [| | |d ts|], m as [|j| |]; simpl; try done;
    try destruct d; try destruct (stopOnce g);
    try destruct (forallb stopFinished ts);
    try destruct (ts !! j) as [t|]; simpl; try done;
    destruct (stepStopTask _ t) as [[t' ev]|]; done.
Qed.

Lemma stepTask_setWg m wl g (t : Task) :
  stepTask m (setWg wl g) t
  = match stepTask m g t with
    | Some (g', t', ev) => Some (setWg wl g', t', ev)
    | None => None
    end.
Proof.
  destruct t as [pc|s pc]; simpl.
  - destruct pc as [|c|]; simpl; [by destruct m, (ctxDone g)| |done].
    rewrite Stop_setWg. destruct (Stop m g c) as [[[g' []] ev]|]; done.
  - destruct pc as [| | |c|]; simpl; try by destruct m.
    + destruct m; try done. destruct (startOf s); try done.
      by destruct (ctxDone g).
    + rewrite Stop_setWg. destruct (Stop m g c) as [[[g' []] ev]|]; done.
Qed.

Lemma runTask_setWg moves wl g (t : Task) :
  runTask moves (setWg wl g) t
  = match runTask moves g t with
    | Some (g', t', ev) => Some (setWg wl g', t', ev)
    | None => None
    end.
Proof.
  revert g t. induction moves as [|m moves IH]; intros g t; simpl; [done|].
  rewrite stepTask_setWg. destruct (stepTask m g t) as [[[g1 t1] ev1]|]; [|done].
  rewrite IH. by destruct (runTask moves g1 t1) as [[[g2 t2] ev2]|].
Qed.

Lemma stepTask_frame m g (t : Task) g' t' ev :
  stepTask m g t = Some (g', t', ev) → wg g' = wg g.
Proof. intros Ht. by eapply TaskStep_frame, stepTask_TaskStep. Qed.

Lemma runTask_frame moves g (t : Task) g' t' ev :
  runTask moves g t = Some (g', t', ev) → wg g' = wg g.
Proof.
  revert g t ev. induction moves as [|m moves IH]; intros g t ev; simpl.
  - by intros [= <- <- <-].
  - destruct (stepTask m g t) as [[[g1 t1] ev1]|] eqn:Ht; [|done].
    destruct (runTask moves g1 t1) as [[[g2 t2] ev2]|] eqn:Hr; [|done].
    intros [= <- <- <-]. rewrite (IH _ _ _ Hr). by eapply stepTask_frame.
Qed.

(** The moves of one goroutine of [lg.wg], made in the program. *)
Lemma exec_runTask i moves w (t : Task) g' t' ev :
  wg (lg w) !! i = Some t →
  runTask moves (lg w) t = Some (g', t', ev) →
  exec (map (ActWg i) moves) w
  = Some (mkWorld (setWg (<[i:=t']> (wg (lg w))) g') (callers w) (trace w ++ ev)).
Proof.
  revert w t g' ev. induction moves as [|m moves IH]; intros w t g' ev Hi; simpl.
  - intros [= <- <- <-]. rewrite app_nil_r, list_insert_id by done.
    by destruct w as [[]].
  - destruct (stepTask m (lg w) t) as [[[g1 t1] ev1]|] eqn:Ht; [|done].
    destruct (runTask moves g1 t1) as [[[g2 t2] ev2]|] eqn:Hr; [|done].
    intros [= <- <- <-]. rewrite Hi, Ht.
    pose proof (stepTask_frame _ _ _ _ _ _ Ht) as Hwg.
    set (w1 := mkWorld (setWg (<[i:=t1]> (wg g1)) g1) (callers w) (trace w ++ ev1)).
    assert (wg (lg w1) !! i = Some t1) as Hi1.
    { simpl. apply list_lookup_insert_eq. rewrite Hwg. by eapply lookup_lt_Some. }
    assert (runTask moves (lg w1) t1
            = Some (setWg (<[i:=t1]> (wg g1)) g2, t2, ev2)) as Hr1.
    { simpl. by rewrite runTask_setWg, Hr. }
    rewrite (IH _ _ _ _ Hi1 Hr1). simpl.
    rewrite Hwg, list_insert_insert_eq, app_assoc. by destruct g2.
Qed.

(** The moves of one caller of [lg.Stop()], made in the program. *)
Lemma exec_runStop k moves w c g' c' ev :
  callers w !! k = Some c →
  runStop moves (lg w) c = Some (g', c', ev) →
  exec (map (ActCaller k) moves) w
  = Some (mkWorld g' (<[k:=c']> (callers w)) (trace w ++ ev)).
Proof.
  revert w c ev. induction moves as [|m moves IH]; intros w c ev Hk; simpl.
  - intros [= <- <- <-]. rewrite app_nil_r, list_insert_id by done.
    by destruct w.
  - destruct (Stop m (lg w) c) as [[[g1 c1] ev1]|] eqn:Hc; [|done].
    destruct (runStop moves g1 c1) as [[[g2 c2] ev2]|] eqn:Hr; [|done].
    intros [= <- <- <-]. rewrite Hk, Hc.
    erewrite IH; [|simpl; apply list_lookup_insert_eq; by eapply lookup_lt_Some
                  |simpl; exact Hr].
    simpl. by rewrite list_insert_insert_eq, app_assoc.
Qed.

(** A goroutine of [lg.wg] that is inside [lg.Stop()] moves as the call
    does. *)
Lemma runStop_runTask moves g (t : Task) g' c' ev :
  callOf t ≠ Returned →
  runStop moves g (callOf t) = Some (g', c', ev) →
  ∃ t', runTask moves g t = Some (g', t', ev) ∧ callOf t' = c'
        ∧ (c' = Returned → taskDone t' = true).
Proof.
  revert g t ev. induction moves as [|m moves IH]; intros g t ev Hne; simpl.
  - intros [= <- <- <-]. exists t. by split_and!.
  - destruct (Stop m g (callOf t)) as [[[g1 c1] ev1]|] eqn:Hc; [|done].
    destruct (runStop moves g1 c1) as [[[g2 c2] ev2]|] eqn:Hr; [|done].
    intros [= <- <- <-].
    assert (∃ t1, stepTask m g t = Some (g1, t1, ev1) ∧ callOf t1 = c1
                  ∧ (c1 = Returned → taskDone t1 = true)) as (t1 & Ht1 & Hc1 & Hd1).
    { destruct t as [[|c|]|s [| | |c|]]; simpl in *; try done.
      - rewrite Hc. exists (SignalTask (resumeHandler c1)).
        split_and!; [by destruct c1|by destruct c1|by intros ->].
      - rewrite Hc. exists (StartTask s (resumeStart c1)).
        split_and!; [by destruct c1|by destruct c1|by intros ->]. }
    rewrite Ht1. destruct moves as [|m' moves'].
    + simpl in Hr. injection Hr as <- <- <-. simpl. exists t1. by split_and!.
    + assert (c1 ≠ Returned) as Hne1 by (intros ->; simpl in Hr; done).
      rewrite <- Hc1 in Hr, Hne1.
      destruct (IH _ _ _ Hne1 Hr) as (t2 & -> & ? & ?). exists t2. by split_and!.
Qed.

(** ** A stop sequence runs to its end *)

Lemma Stop_no_signal g c : Stop Signal g c = None.
Proof. destruct c as [| | |d ts|]; simpl; try done; by destruct d. Qed.

Lemma runStop_finishing moves g c r :
  runStop moves g c = Some r →
  (∀ k, forallb (finishing (S:=S)) (map (ActCaller k) moves) = true)
  ∧ (∀ i, forallb (finishing (S:=S)) (map (ActWg i) moves) = true).
Proof.
  revert g c r. induction moves as [|m moves IH]; intros g c r; simpl; [done|].
  destruct (Stop m g c) as [[[g1 c1] ev1]|] eqn:Hc; [|done].
  destruct (runStop moves g1 c1) as [[[g2 c2] ev2]|] eqn:Hr; [|done].
  intros _. destruct (IH _ _ _ Hr) as [Hk Hi].
  destruct m; try (by split; intros; rewrite ?Hk, ?Hi).
  by rewrite Stop_no_signal in Hc.
Qed.

Lemma runStop_cons m moves g c g1 c1 ev1 r :
  Stop m g c = Some (g1, c1, ev1) →
  runStop moves g1 c1 = Some r →
  ∃ ev, runStop (m :: moves) g c = Some (r.1.1, r.1.2, ev).
Proof. intros Hc Hr. simpl. rewrite Hc, Hr. destruct r as [[g2 c2] ev2]. by eexists. Qed.

Lemma cooperative_willReturn (ts : list StopTask) :
  Forall (λ t, cooperative (stopTarget t)) ts → Forall willReturn ts.
Proof. intros Hts. eapply Forall_impl; [done|]. intros t [_ Ht]. by right. Qed.

(** From wherever a call of [lg.Stop()] that holds the latch is, it runs to
    its end when the services' [Stop] return: [stopWg.Wait()] ends, at the
    deadline at the latest, and the latch closes. *)
Lemma runStop_finish g c :
  running c = 1 ∨ (c = AtDo ∧ stopOnce g = OnceFresh) →
  callKnown cooperative c →
  Forall cooperative (startedServices g) →
  ∃ moves g' ev,
    runStop moves g c = Some (g', Returned, ev) ∧ stopOnce g' = OnceDone.
Proof.
  assert (∀ g d ts, Forall (λ t, cooperative (stopTarget t)) ts →
            ∃ moves g' ev,
              runStop moves g (AtStopWait d ts) = Some (g', Returned, ev)
              ∧ stopOnce g' = OnceDone) as Hwait.
  { clear. intros g d ts Hts%cooperative_willReturn.
    destruct (runStop_join g [] ts) as (moves & ev & Hjoin); [done..|].
    simpl in Hjoin. destruct d; [by exists moves, (setStopOnce OnceDone g), ev|].
    exists (Deadline :: moves), (setStopOnce OnceDone g), ([] ++ ev).
    simpl in *. by rewrite Hjoin. }
  assert (∀ g, Forall cooperative (startedServices g) →
            ∃ moves g' ev,
              runStop moves g AtStopAll = Some (g', Returned, ev)
              ∧ stopOnce g' = OnceDone) as Hfan.
  { clear -Hwait. intros g Hst.
    destruct (Hwait g (timeout g <=? 0)%Z (map StopPending (startedServices g)))
      as (moves & g' & ev & Hrun & Hd).
    { clear -Hst. induction Hst; simpl; by constructor. }
    destruct (runStop_cons Run moves g AtStopAll _ _ _ _ eq_refl Hrun) as [ev' Hrun'].
    by exists (Run :: moves), g', ev'. }
  assert (∀ g, Forall cooperative (startedServices g) →
            ∃ moves g' ev,
              runStop moves g AtCancel = Some (g', Returned, ev)
              ∧ stopOnce g' = OnceDone) as Hcancel.
  { clear -Hfan. intros g Hst.
    destruct (Hfan (setCtxDone true g)) as (moves & g' & ev & Hrun & Hd); [done|].
    destruct (runStop_cons Run moves g AtCancel _ _ _ _ eq_refl Hrun) as [ev' Hrun'].
    by exists (Run :: moves), g', ev'. }
  intros [Hc|[-> Hf]] Hk Hst.
  - destruct c as [| | |d ts|]; simpl in Hc; try done; eauto.
  - destruct (Hcancel (setStopOnce OnceRunning g)) as (moves & g' & ev & Hrun & Hd);
      [done|].
    assert (Stop Run g AtDo = Some (setStopOnce OnceRunning g, AtCancel, [])) as Hdo.
    { simpl. by rewrite Hf. }
    destruct (runStop_cons Run moves g AtDo _ _ _ _ Hdo Hrun) as [ev' Hrun'].
    by exists (Run :: moves), g', ev'.
Qed.

(** ** Shutting down *)

Lemma sum_list_with_pos {A} (f : A → nat) (l : list A) :
  0 < sum_list_with f l → ∃ i x, l !! i = Some x ∧ 0 < f x.
Proof.
  induction l as [|a l IH]; simpl; [lia|]. intros Hpos.
  destruct (decide (0 < f a)) as [Ha|Ha]; [by exists 0, a|].
  destruct IH as (i & x & Hi & Hx); [lia|]. by exists (Datatypes.S i), x.
Qed.

Lemma Known_run (P : S → Prop) acts w w' :
  exec acts w = Some w' → Forall P (added acts) → Known P w → Known P w'.
Proof.
  revert w. induction acts as [|a acts IH]; intros w; simpl.
  - by intros [= <-].
  - destruct (step a w) as [w1|] eqn:Hs; [|done]. intros Hrun Hadd HK.
    destruct a as [x| | |i m|k m];
      try (apply (IH _ Hrun Hadd); refine (Known_step P _ _ _ _ Hs HK); done).
    simpl in Hadd. apply Forall_cons in Hadd as [Hx Hadd].
    apply (IH _ Hrun Hadd). injection Hs as <-.
    destruct HK as (Hsv & Hst & Hwg & Hcs). split_and!; simpl; try done.
    apply Forall_app. split; [done|]. by constructor.
Qed.

Lemma finishing_afterRegistration acts :
  forallb (finishing (S:=S)) acts = true → forallb (afterRegistration (S:=S)) acts = true.
Proof.
  induction acts as [|a acts IH]; simpl; [done|].
  intros [Ha Hacts]%andb_prop. rewrite IH by done. by destruct a.
Qed.

Lemma forallb_app_true {A} (f : A → bool) (l1 l2 : list A) :
  forallb f l1 = true → forallb f l2 = true → forallb f (l1 ++ l2) = true.
Proof. intros H1 H2. by rewrite forallb_app, H1, H2. Qed.

Lemma stops_app acts1 acts2 : stops (acts1 ++ acts2) = stops (S:=S) acts1 + stops acts2.
Proof. apply sum_list_with_app. Qed.

Lemma stops_caller k moves : stops (S:=S) (map (ActCaller k) moves) = 0.
Proof. induction moves as [|m moves IH]; simpl; [done|]. apply IH. Qed.

Lemma stops_task i moves : stops (S:=S) (map (ActWg i) moves) = 0.
Proof. induction moves as [|m moves IH]; simpl; [done|]. apply IH. Qed.

Lemma finishing_runs i n :
  forallb (finishing (S:=S)) (map (ActWg i) (replicate n Run)) = true.
Proof. induction n as [|n IH]; simpl; [done|]. apply IH. Qed.

(** Whatever the state of the latch, the stop sequence can be brought to
    its end: by the goroutine that is in it, or by one more call of
    [lg.Stop()] when nobody has entered it. *)
Lemma reach_done w :
  Inv w → Known cooperative w →
  ∃ acts w',
    exec acts w = Some w' ∧ stopOnce (lg w') = OnceDone
    ∧ forallb finishing acts = true ∧ stops acts ≤ 1.
Proof.
  intros HI (Hsv & Hst & Hwg & Hcs).
  destruct (stopOnce (lg w)) eqn:Ho.
  - destruct (runStop_finish (lg w) AtDo) as (moves & g' & ev & Hrun & Hd);
      [by right|done|done|].
    set (w1 := mkWorld (lg w) (callers w ++ [AtDo]) (trace w)).
    assert (callers w1 !! length (callers w) = Some AtDo) as Hk.
    { simpl. by apply list_lookup_middle. }
    pose proof (exec_runStop _ _ w1 _ _ _ _ Hk Hrun) as Hexec.
    destruct (runStop_finishing _ _ _ _ Hrun) as [Hfin _].
    eexists (InvokeStop :: map (ActCaller (length (callers w))) moves), _.
    split_and!; [exact Hexec|done|simpl; apply Hfin|].
    simpl. rewrite stops_caller. lia.
  - pose proof (inv_running _ HI) as Hr. rewrite Ho in Hr. unfold total in Hr.
    simpl in Hr.
    destruct (decide (0 < sum_list_with (λ t, running (callOf t)) (wg (lg w))))
      as [Hpos|Hpos].
    + destruct (sum_list_with_pos _ _ Hpos) as (i & task & Hi & Hrun1).
      pose proof (Forall_lookup_1 _ _ _ _ Hwg Hi) as [Hck _].
      assert (callOf task ≠ Returned) as Hne by (intros Heq; rewrite Heq in Hrun1; simpl in Hrun1; lia).
      destruct (runStop_finish (lg w) (callOf task)) as (moves & g' & ev & Hrun & Hd);
        [left; destruct (callOf task); simpl in *; (done || lia)|done|done|].
      destruct (runStop_runTask _ _ _ _ _ _ Hne Hrun) as (t' & Ht' & _ & _).
      pose proof (exec_runTask _ _ _ _ _ _ _ Hi Ht') as Hexec.
      destruct (runStop_finishing _ _ _ _ Hrun) as [_ Hfin].
      eexists (map (ActWg i) moves), _.
      split_and!; [exact Hexec|done|apply Hfin|]. rewrite stops_task. lia.
    + destruct (sum_list_with_pos running (callers w)) as (k & c & Hk & Hrun1); [lia|].
      pose proof (Forall_lookup_1 _ _ _ _ Hcs Hk) as Hck.
      destruct (runStop_finish (lg w) c) as (moves & g' & ev & Hrun & Hd);
        [left; destruct c; simpl in *; (done || lia)|done|done|].
      pose proof (exec_runStop _ _ _ _ _ _ _ Hk Hrun) as Hexec.
      destruct (runStop_finishing _ _ _ _ Hrun) as [Hfin _].
      eexists (map (ActCaller k) moves), _.
      split_and!; [exact Hexec|done|apply Hfin|]. rewrite stops_caller. lia.
  - exists [], w. by split_and!; [| | |simpl; lia].
Qed.

(** Once the stop sequence is over, a goroutine of [lg.wg] runs to its end
    on its own: the listener sees the signal, a [Start] that waits for the
    signal returns, and a call of [lg.Stop()] returns at once. *)
Lemma task_finish g (t : Task) :
  stopOnce g = OnceDone → ctxDone g = true →
  taskDone t = true ∨ (running (callOf t) = 0 ∧ taskKnown cooperative t) →
  ∃ n g' t' ev,
    runTask (replicate n Run) g t = Some (g', t', ev)
    ∧ taskDone t' = true ∧ stopOnce g' = OnceDone ∧ ctxDone g' = true.
Proof.
  intros Hd Hctx [Hdone|[Hrun [Hck Hk]]]; [by exists 0, g, t, []|].
  destruct t as [[|c|]|s pc]; simpl in *.
  - exists 1, g, (SignalTask HandlerDone), ([] ++ []). simpl. by rewrite Hctx.
  - destruct c; simpl in Hrun; try done.
    exists 1, g, (SignalTask HandlerDone), ([] ++ []). simpl. by rewrite Hd.
  - by exists 0, g, (SignalTask HandlerDone), [].
  - destruct Hk as [[Hstart _] Hpc].
    assert (∃ r, ∀ g0, ctxDone g0 = true →
              startClosure s Run g0 InStart
              = Some (g0, afterStart r, [EvStartReturned s r])) as [r Hret].
    { simpl. destruct (startOf s) as [r|r|]; [exists r|exists r|done].
      - done.
      - by intros g0 ->. }
    assert (∀ g0, stopOnce g0 = OnceDone → ctxDone g0 = true →
              ∃ n ev, runTask (replicate n Run) g0 (StartTask s InStart)
                      = Some (g0, StartTask s StartDone, ev)) as Hin.
    { intros g0 Hd0 Hc0. destruct r as [e|] eqn:Hr.
      - exists 2. eexists. cbn [replicate runTask stepTask].
        rewrite (Hret _ Hc0). simpl. by rewrite Hd0.
      - exists 1. eexists. cbn [replicate runTask stepTask].
        by rewrite (Hret _ Hc0). }
    destruct pc as [| | |c|].
    + destruct (Hin (setStartedServices (startedServices g ++ [s]) g))
        as (n & ev & Hn); [done..|].
      exists (Datatypes.S (Datatypes.S n)). do 3 eexists. cbn [replicate runTask stepTask startClosure].
      rewrite Hn. by split_and!.
    + destruct (Hin g) as (n & ev & Hn); [done..|].
      exists (Datatypes.S n). do 3 eexists. cbn [replicate runTask stepTask startClosure].
      rewrite Hn. by split_and!.
    + destruct (Hin g) as (n & ev & Hn); [done..|]. exists n. by do 3 eexists.
    + destruct c; simpl in Hrun; try done.
      exists 1, g, (StartTask s StartDone), ([] ++ []). simpl. by rewrite Hd.
    + by exists 0, g, (StartTask s StartDone), [].
Qed.

(** ... and so do, one after the other, all the goroutines of [lg.wg]. *)
Lemma drain n w :
  n ≤ length (wg (lg w)) →
  stopOnce (lg w) = OnceDone → ctxDone (lg w) = true →
  Forall (λ t, taskDone t = true ∨ (running (callOf t) = 0 ∧ taskKnown cooperative t))
         (wg (lg w)) →
  ∃ acts w',
    exec acts w = Some w'
    ∧ stopOnce (lg w') = OnceDone ∧ ctxDone (lg w') = true
    ∧ Forall (λ t, taskDone t = true ∨ (running (callOf t) = 0 ∧ taskKnown cooperative t))
             (wg (lg w'))
    ∧ length (wg (lg w')) = length (wg (lg w))
    ∧ Forall (λ t, taskDone t = true) (take n (wg (lg w')))
    ∧ forallb finishing acts = true ∧ stops acts = 0.
Proof.
  induction n as [|n IH]; intros Hn Hd Hctx Hall.
  - exists [], w. by split_and!; try constructor.
  - destruct IH as (acts1 & w1 & Hrun1 & Hd1 & Hctx1 & Hall1 & Hlen1 & Htake1 & Hf1 & Hs1);
      [lia|done..|].
    destruct (lookup_lt_is_Some_2 (wg (lg w1)) n) as [task Hi]; [lia|].
    destruct (task_finish (lg w1) task Hd1 Hctx1) as (k & g' & t' & ev & Hk & Hdone & Hd' & Hctx');
      [by apply (Forall_lookup_1 _ _ _ _ Hall1 Hi)|].
    pose proof (exec_runTask _ _ _ _ _ _ _ Hi Hk) as Hexec.
    eexists (acts1 ++ map (ActWg n) (replicate k Run)), _.
    split_and!.
    + rewrite exec_app, Hrun1. exact Hexec.
    + done.
    + done.
    + simpl. apply Forall_insert; [done|]. by left.
    + simpl. by rewrite length_insert.
    + simpl. rewrite (take_S_r _ _ t').
      * rewrite take_insert_ge by lia. apply Forall_app. split; [done|].
        by repeat constructor.
      * apply list_lookup_insert_eq. by eapply lookup_lt_Some.
    + apply forallb_app_true; [done|apply finishing_runs].
    + rewrite stops_app, Hs1, stops_task. lia.
Qed.

(** Graceful shutdown is always possible.  Whatever a program has
    done with a group whose services play along ([Start] returns, at the
    latest once the signal is asserted; [Stop] returns, at the latest at
    the deadline), and wherever its goroutines are, the run can be continued
    without a SIGINT or SIGTERM and with at most one more call of
    [lg.Stop()] so that the stop sequence is over and [lg.Wait()] returns:
    no reachable state is a deadlock. *)
Theorem shutdown_is_always_possible t acts w :
  exec acts (boot t) = Some w →
  Forall cooperative (added acts) →
  ∃ acts' w',
    exec acts' w = Some w'
    ∧ Wait (lg w') = Some ()
    ∧ stopOnce (lg w') = OnceDone
    ∧ forallb finishing acts' = true
    ∧ stops acts' ≤ 1.
Proof.
  intros Hrun Hcoop.
  pose proof (reachable_Inv _ _ _ Hrun) as HI.
  assert (Known cooperative w) as HK.
  { apply (Known_run _ _ _ _ Hrun Hcoop). by split_and!; simpl. }
  destruct (reach_done w HI HK) as (acts1 & w1 & Hrun1 & Hd1 & Hf1 & Hs1).
  pose proof (exec_Inv _ _ _ HI Hrun1) as HI1.
  pose proof (Known_exec _ _ _ _ (finishing_afterRegistration _ Hf1) Hrun1 HK)
    as (_ & _ & Hwg1 & _).
  assert (ctxDone (lg w1) = true) as Hctx1.
  { apply (inv_ctx _ HI1). rewrite (inv_cancels _ HI1), Hd1. simpl. lia. }
  destruct (drain (length (wg (lg w1))) w1)
    as (acts2 & w2 & Hrun2 & Hd2 & _ & _ & Hlen2 & Htake2 & Hf2 & Hs2); [done..| |].
  { apply Forall_lookup_2. intros i task Hi. right.
    split; [|by apply (Forall_lookup_1 _ _ _ _ Hwg1 Hi)].
    pose proof (inv_running _ HI1) as Hr. rewrite Hd1 in Hr. simpl in Hr.
    pose proof (total_lookup_task running _ _ _ Hi). lia. }
  exists (acts1 ++ acts2), w2. split_and!.
  - by rewrite exec_app, Hrun1.
  - apply Wait_all_done. rewrite <- Hlen2, firstn_all in Htake2. exact Htake2.
  - done.
  - by apply forallb_app_true.
  - rewrite stops_app. lia.
Qed.

(** ** Wait and the stop sequence *)

Lemma done_outside_calls (f : StopCall (S:=S) → nat) (wl : list Task) :
  f Returned = 0 → Forall (λ t, taskDone t = true) wl →
  sum_list_with (λ t, f (callOf t)) wl = 0.
Proof.
  intros Hf. induction 1 as [|t wl Ht _ IH]; simpl; [done|]. rewrite IH.
  destruct t as [[]|x []]; simpl in *; (done || lia).
Qed.

(** When [Wait] returns, the stop sequence is over, or it is still being
    run by a call of [lg.Stop()] made from outside [lg.wg].  [Wait] waits
    for the stop sequence a failed start or a signal sets off, which runs
    in a goroutine of [lg.wg]; it does not wait for [stopAll] when the
    program itself called [lg.Stop()] from another goroutine. *)
Theorem Wait_waits_for_its_own_stop_sequence t acts w :
  exec acts (boot t) = Some w →
  wg (lg w) ≠ [] →
  Wait (lg w) = Some () →
  stopOnce (lg w) = OnceDone
  ∨ (stopOnce (lg w) = OnceRunning
     ∧ ∃ k c, callers w !! k = Some c ∧ pastCancel c = 1).
Proof.
  intros Hrun Hne HW. pose proof (reachable_Inv _ _ _ Hrun) as HI.
  destruct (reachable_Listening _ _ _ Hrun) as [[Hnil|[pc Hpc]] Hdone]; [done|].
  apply Wait_all_done in HW.
  pose proof (Forall_lookup_1 _ _ _ _ HW Hpc) as Hpcd.
  assert (ctxDone (lg w) = true) as Hctx.
  { apply (Forall_lookup_1 _ _ _ _ Hdone Hpc). by destruct pc. }
  apply (inv_ctx _ HI) in Hctx.
  pose proof (inv_cancels _ HI) as Hc. pose proof (inv_running _ HI) as Hr.
  pose proof (pastCancel_le_running w) as Hle.
  destruct (stopOnce (lg w)) eqn:Ho; simpl in *; [lia| |by left].
  right. split; [done|]. unfold total in Hc.
  rewrite (done_outside_calls pastCancel _ eq_refl HW) in Hc.
  destruct (sum_list_with_pos pastCancel (callers w)) as (k & c & Hk & Hpos); [lia|].
  exists k, c. split; [done|]. destruct c; simpl in *; (done || lia).
Qed.

(** ** A service stopped before it is started *)

(** A service can be stopped before it is started.  The goroutine of
    [Start] appends the service to [lg.startedServices] before it calls
    [srvc.Start], so a stop sequence that runs in between calls [srvc.Stop]
    first; [srvc.Start] is entered afterwards, with the signal already
    asserted. *)
Theorem Stop_can_precede_Start t s :
  ∃ acts w w',
    exec acts (boot t) = Some w
    ∧ stopCalls s (trace w) = 1
    ∧ startCalls s (trace w) = 0
    ∧ step (ActWg 1 Run) w = Some w'
    ∧ startCalls s (trace w') = 1
    ∧ stopCalls s (trace w') = 1
    ∧ ctxDone (lg w) = true.
Proof.
  exists [InvokeAdd s; InvokeStart; ActWg 1 Run; InvokeStop;
          ActCaller 0 Run; ActCaller 0 Run; ActCaller 0 Run; ActCaller 0 (Sub 0)].
  assert (same s s = 1) as Hs by (unfold same; by rewrite decide_True).
  destruct t as [|p|p]; do 2 eexists.
  all: split; [reflexivity|].
  all: split; [simpl; by rewrite Hs|].
  all: split; [reflexivity|].
  all: split; [reflexivity|].
  all: split; [simpl; by rewrite Hs|].
  all: split; [simpl; by rewrite Hs|reflexivity].
Qed.

(** ** Registering after Start *)

Lemma start_goroutines_step s (a : Action) w w' :
  step a w = Some w' →
  sum_list_with (isStartOf s) (wg (lg w'))
  = sum_list_with (isStartOf s) (wg (lg w)) + starts [a] * occ s (services (lg w))
  ∧ (startCalls s (trace w) = sum_list_with (called s) (wg (lg w)) →
     startCalls s (trace w') = sum_list_with (called s) (wg (lg w'))).
Proof.
  intros Hs. destruct a as [x| | |i m|k m]; unfold step in Hs.
  - injection Hs as <-. simpl. split; [lia|done].
  - injection Hs as <-. simpl. rewrite !sum_list_with_app. simpl.
    rewrite launched_sum, sum_list_with_launched by done. split; lia.
  - injection Hs as <-. simpl. split; [lia|done].
  - destruct (wg (lg w) !! i) as [task|] eqn:Hi; [|done].
    destruct (stepTask m (lg w) task) as [[[g' t'] ev]|] eqn:Ht; [|done].
    injection Hs as <-. simpl. apply stepTask_TaskStep in Ht.
    pose proof (TaskStep_frame _ _ _ _ _ Ht) as Hwg. rewrite Hwg.
    destruct (TaskStep_started s _ _ _ _ _ Ht) as [Hsame Hcalled].
    pose proof (sum_list_with_insert (isStartOf s) _ _ _ t' Hi).
    pose proof (sum_list_with_insert (called s) _ _ _ t' Hi).
    rewrite startCalls_app. split; lia.
  - destruct (callers w !! k) as [c|] eqn:Hk; [|done].
    destruct (Stop m (lg w) c) as [[[g' c'] ev]|] eqn:Hc; [|done].
    injection Hs as <-. simpl. apply Stop_StopStep in Hc.
    destruct (StopStep_frame _ _ _ _ _ Hc) as (-> & _).
    rewrite startCalls_app, (StopStep_startCalls s _ _ _ _ _ Hc). split; lia.
Qed.

Lemma startCalls_exec s acts w w' :
  exec acts w = Some w' →
  startCalls s (trace w) = sum_list_with (called s) (wg (lg w)) →
  startCalls s (trace w') = sum_list_with (called s) (wg (lg w')).
Proof.
  revert w. induction acts as [|a acts IH]; intros w; simpl.
  - by intros [= <-].
  - destruct (step a w) as [w1|] eqn:Hs; [|done]. intros Hrun Hc.
    apply (IH _ Hrun). by apply (start_goroutines_step s _ _ _ Hs).
Qed.

Lemma added_cons (a : Action) acts : added (a :: acts) = added [a] ++ added acts.
Proof. by destruct a. Qed.

(** While [s] is not registered, no goroutine is launched for it. *)
Lemma unregistered_exec s acts w w' :
  exec acts w = Some w' →
  occ s (services (lg w)) = 0 → occ s (added acts) = 0 →
  sum_list_with (isStartOf s) (wg (lg w')) = sum_list_with (isStartOf s) (wg (lg w))
  ∧ occ s (services (lg w')) = 0.
Proof.
  revert w. induction acts as [|a acts IH]; intros w; simpl exec.
  - by intros [= <-].
  - destruct (step a w) as [w1|] eqn:Hs; [|done]. intros Hrun Hsv Hadd.
    rewrite added_cons, occ_app in Hadd.
    destruct (start_goroutines_step s _ _ _ Hs) as [Hsum _].
    pose proof (step_services _ _ _ Hs) as Hsv1.
    destruct (IH _ Hrun) as [Hsum' Hsv']; [rewrite Hsv1, occ_app; lia|lia|].
    split; [|done]. rewrite Hsum', Hsum, Hsv. lia.
Qed.

(** Without a call of [lg.Start()], no goroutine is launched at all. *)
Lemma unstarted_exec s acts w w' :
  exec acts w = Some w' → starts acts = 0 →
  sum_list_with (isStartOf s) (wg (lg w')) = sum_list_with (isStartOf s) (wg (lg w))
  ∧ occ s (services (lg w')) = occ s (services (lg w)) + occ s (added acts).
Proof.
  revert w. induction acts as [|a acts IH]; intros w; simpl exec.
  - intros [= <-] _. change (added []) with (@nil S). unfold occ. simpl. lia.
  - destruct (step a w) as [w1|] eqn:Hs; [|done]. intros Hrun Hst.
    assert (starts [a] = 0 ∧ starts acts = 0) as [Ha Hacts]
      by (unfold starts in *; simpl in *; lia).
    rewrite added_cons, occ_app.
    destruct (start_goroutines_step s _ _ _ Hs) as [Hsum _].
    pose proof (step_services _ _ _ Hs) as Hsv1.
    destruct (IH _ Hrun Hacts) as [Hsum' Hsv'].
    rewrite Hsum', Hsum, Hsv', Hsv1, occ_app, Ha. lia.
Qed.

(** A service that is registered only after the last call of [lg.Start()]
    is in the registry but is never run: it is not appended to
    [lg.startedServices], its [Start] and its [Stop] are never called.  In
    particular nothing is started or stopped before [lg.Start()] is
    called. *)
Theorem late_registration_is_ignored t acts1 acts2 w s :
  exec (acts1 ++ acts2) (boot t) = Some w →
  occ s (added acts1) = 0 →
  starts acts2 = 0 →
  occ s (services (lg w)) = occ s (added acts2)
  ∧ occ s (startedServices (lg w)) = 0
  ∧ startCalls s (trace w) = 0
  ∧ stopCalls s (trace w) = 0.
Proof.
  intros Hrun Hadd Hst. pose proof (reachable_Inv _ _ _ Hrun) as HI.
  pose proof (startCalls_exec s _ _ _ Hrun eq_refl) as Hcalls.
  rewrite exec_app in Hrun.
  destruct (exec acts1 (boot t)) as [w1|] eqn:Hrun1; [|done]. simpl in Hrun.
  destruct (unregistered_exec s _ _ _ Hrun1 eq_refl Hadd) as [Hsum1 Hsv1].
  destruct (unstarted_exec s _ _ _ Hrun Hst) as [Hsum Hsv].
  destruct (tracked_le_isStartOf s (wg (lg w))) as (Hct & Hti & _).
  pose proof (inv_tracked _ HI s) as Htr.
  pose proof (stopCalls_le_started w s HI) as Hstop.
  simpl in Hsum1. split_and!; lia.
Qed.

End Properties.

(** * The outcomes of the stop operations *)

Section StopOutcomes.

Context {S : Type} (loud quiet : Service S).

(** The two implementations start alike and stop alike, up to the value
    their [Stop] returns. *)
Hypothesis same_start :
  ∀ s, startOf (Startable:=Service_Startable (Service:=loud)) s
       = startOf (Startable:=Service_Startable (Service:=quiet)) s.
Hypothesis same_stop :
  ∀ s, mutedStop (stopOf (Stoppable:=Service_Stoppable (Service:=loud)) s)
       = mutedStop (stopOf (Stoppable:=Service_Stoppable (Service:=quiet)) s).

Lemma stepStopTask_muted d (t t' : StopTask (S:=S)) ev :
  stepStopTask (Service0:=loud) d t = Some (t', ev) →
  ∃ ev', stepStopTask (Service0:=quiet) d t = Some (t', ev')
         ∧ withoutStopOutcomes ev' = withoutStopOutcomes ev.
Proof.
  destruct t as [x|x|x]; simpl; [by eauto| |done].
  pose proof (same_stop x) as Hx.
  destruct (stopOf (Stoppable:=Service_Stoppable (Service:=loud)) x),
           (stopOf (Stoppable:=Service_Stoppable (Service:=quiet)) x);
    simpl in Hx; try done; destruct d; intros [= <- <-]; by eauto.
Qed.

Lemma Stop_muted m (g g' : Group (S:=S)) c c' ev :
  Stop (Service0:=loud) m g c = Some (g', c', ev) →
  ∃ ev', Stop (Service0:=quiet) m g c = Some (g', c', ev')
         ∧ withoutStopOutcomes ev' = withoutStopOutcomes ev.
Proof.
  destruct c as [| | |d ts|]; try (destruct m; simpl; by eauto).
  destruct m as [|j| |]; try (simpl; by eauto).
  unfold Stop, stopAll. destruct (ts !! j) as [t|]; [|by destruct d].
  destruct (stepStopTask (Service0:=loud) d t) as [[t' ev0]|] eqn:Ht;
    [|by destruct d].
  destruct (stepStopTask_muted _ _ _ _ Ht) as (ev' & -> & Hev).
  destruct d; intros [= <- <- <-]; eauto.
Qed.

Lemma stepTask_muted m (g g' : Group (S:=S)) (t t' : Task) ev :
  stepTask (Service0:=loud) m g t = Some (g', t', ev) →
  ∃ ev', stepTask (Service0:=quiet) m g t = Some (g', t', ev')
         ∧ withoutStopOutcomes ev' = withoutStopOutcomes ev.
Proof.
  destruct t as [pc|s pc]; simpl.
  - destruct pc as [|c|]; simpl; [by eauto| |done].
    destruct (Stop (Service0:=loud) m g c) as [[[g1 c1] ev1]|] eqn:Hc; [|done].
    destruct (Stop_muted _ _ _ _ _ _ Hc) as (ev' & -> & Hev).
    destruct c1; intros [= <- <- <-]; eauto.
  - destruct pc as [| | |c|]; simpl; try by eauto.
    + rewrite same_start. by eauto.
    + destruct (Stop (Service0:=loud) m g c) as [[[g1 c1] ev1]|] eqn:Hc; [|done].
      destruct (Stop_muted _ _ _ _ _ _ Hc) as (ev' & -> & Hev).
      destruct c1; intros [= <- <- <-]; eauto.
Qed.

Lemma withoutStopOutcomes_app (tr ev : list (Event (S:=S))) :
  withoutStopOutcomes (tr ++ ev) = withoutStopOutcomes tr ++ withoutStopOutcomes ev.
Proof. apply map_app. Qed.

Lemma step_muted (a : Action) (w w' w1 : World (S:=S)) :
  sameButStopOutcomes w w' →
  step (Service0:=loud) a w = Some w1 →
  ∃ w1', step (Service0:=quiet) a w' = Some w1' ∧ sameButStopOutcomes w1 w1'.
Proof.
  intros (Hg & Hcs & Htr). destruct a as [s| | |i m|k m]; simpl; rewrite ?Hg, ?Hcs.
  - intros [= <-]. by eexists.
  - intros [= <-]. by eexists.
  - intros [= <-]. by eexists.
  - destruct (wg (lg w) !! i) as [t|]; [|done].
    destruct (stepTask (Service0:=loud) m (lg w) t) as [[[g' t'] ev]|] eqn:Ht;
      [|done].
    destruct (stepTask_muted _ _ _ _ _ _ Ht) as (ev' & -> & Hev).
    intros [= <-]. eexists. split; [done|].
    split_and!; simpl; [done..|]. by rewrite !withoutStopOutcomes_app, Htr, Hev.
  - destruct (callers w !! k) as [c|]; [|done].
    destruct (Stop (Service0:=loud) m (lg w) c) as [[[g' c'] ev]|] eqn:Hc; [|done].
    destruct (Stop_muted _ _ _ _ _ _ Hc) as (ev' & -> & Hev).
    intros [= <-]. eexists. split; [done|].
    split_and!; simpl; [done..|]. by rewrite !withoutStopOutcomes_app, Htr, Hev.
Qed.

Lemma exec_muted acts (w w' w1 : World (S:=S)) :
  sameButStopOutcomes w w' →
  exec (Service0:=loud) acts w = Some w1 →
  ∃ w1', exec (Service0:=quiet) acts w' = Some w1' ∧ sameButStopOutcomes w1 w1'.
Proof.
  revert w w'. induction acts as [|a acts IH]; intros w w' Hsame; simpl.
  - intros [= <-]. eauto.
  - destruct (step (Service0:=loud) a w) as [w0|] eqn:Hs; [|done].
    destruct (step_muted _ _ _ _ Hsame Hs) as (w0' & -> & Hsame0). eauto.
Qed.

(** C8: what a service's [Stop] returns has no effect.  Replace the value
    any [Stop] returns by any other, a failure by [nil]: every run of the
    program is still a run, step for step; it ends in the same group, with
    the same callers of [lg.Stop()] returned, and logs the same events, the
    same calls of [Stop] on the same services among them; and [Wait] returns
    in the one exactly when it returns in the other. *)
Theorem stop_outcomes_are_discarded acts (w w1 : World (S:=S)) :
  exec (Service0:=loud) acts w = Some w1 →
  ∃ w2, exec (Service0:=quiet) acts w = Some w2
        ∧ lg w2 = lg w1
        ∧ callers w2 = callers w1
        ∧ withoutStopOutcomes (trace w2) = withoutStopOutcomes (trace w1)
        ∧ Wait (lg w2) = Wait (lg w1).
Proof.
  intros Hrun. destruct (exec_muted acts w w w1) as (w2 & Hrun2 & Hg & Hcs & Htr);
    [done|done|].
  exists w2. split_and!; try done. by rewrite Hg.
Qed.

End StopOutcomes.

(** * The runs of the tests *)

Lemma Wait_returns_once_stopped_witness :
  exec failed_run (boot 0) = Some failed_final
  ∧ Wait (lg failed_final) = Some ()
  ∧ Forall (λ task, taskDone task = true) (wg (lg failed_final))
  ∧ (0 < startFailures (trace failed_final) →
     stopOnce (lg failed_final) = OnceDone
     ∧ ctxDone (lg failed_final) = true
     ∧ cancels (trace failed_final) = 1).
Proof.
  assert (exec failed_run (boot 0) = Some failed_final) as Hrun
    by (vm_compute; reflexivity).
  assert (Wait (lg failed_final) = Some ()) as HW by (vm_compute; reflexivity).
  split; [exact Hrun|]. split; [exact HW|].
  exact (Wait_returns_once_stopped 0 failed_run failed_final Hrun HW).
Defined.

(** C1 as the spec states it fails on the code: no reading of what [Wait]
    returns gives the first start failure of the run, since [Wait] returns
    the same, nothing, after a run in which a start failed and after a run
    in which none did. *)
Lemma Wait_reports_no_failure :
  ¬ ∃ decode : () → outcome,
      ∀ acts (w : World (S:=fake)) r,
        exec acts (boot 0) = Some w →
        Wait (lg w) = Some r →
        decode r = spec_firstFailure (trace w).
Proof.
  intros [decode Hdec].
  assert (exec failed_run (boot 0) = Some failed_final) as Hf
    by (vm_compute; reflexivity).
  assert (exec (multiple_begin ++ multiple_stop) (boot 0) = Some multiple_final)
    as Hm by (vm_compute; reflexivity).
  pose proof (Hdec _ _ () Hf eq_refl) as H1.
  pose proof (Hdec _ _ () Hm eq_refl) as H2.
  rewrite H1 in H2. vm_compute in H2. discriminate H2.
Qed.

Lemma Stop_body_runs_exactly_once_witness :
  exec idempotent_run (boot 0) = Some idempotent_final
  ∧ callers idempotent_final = [Returned; Returned; Returned]
  ∧ cancels (trace idempotent_final) = 1
  ∧ fanOuts (trace idempotent_final) = 1.
Proof.
  assert (exec idempotent_run (boot 0) = Some idempotent_final) as Hrun
    by (vm_compute; reflexivity).
  split; [exact Hrun|]. split; [reflexivity|].
  destruct (Stop_body_runs_exactly_once 0 idempotent_run idempotent_final Hrun)
    as (_ & _ & Honce & _).
  apply Honce. left. exists 2. reflexivity.
Defined.

Lemma stopAll_waits_for_every_Stop_witness :
  (exec hung_run (boot 5000000000) = Some hung_world
   ∧ callAt (InGroup 1) hung_world = Some (AtStopWait true [StopInCall hanger])
   ∧ ∀ acts w', exec acts hung_world = Some w' →
       Wait (lg w') = None ∧ stopOnce (lg w') = OnceRunning
       ∧ ∀ m, Stop m (lg w') AtDo = None)
  ∧ (exec hung_outside_run (boot 5000000000) = Some hung_outside_world
     ∧ callAt (Outside 0) hung_outside_world
       = Some (AtStopWait true [StopInCall stubborn])
     ∧ Wait (lg hung_outside_world) = Some ()
     ∧ ∀ acts w', exec acts hung_outside_world = Some w' →
         (∃ c', callAt (Outside 0) w' = Some c' ∧ waitsFor 0 stubborn c')
         ∧ stopOnce (lg w') = OnceRunning
         ∧ ∀ m, Stop m (lg w') AtDo = None).
Proof.
  assert (exec hung_run (boot 5000000000) = Some hung_world) as Hrun
    by (vm_compute; reflexivity).
  assert (exec hung_outside_run (boot 5000000000) = Some hung_outside_world)
    as Hout by (vm_compute; reflexivity).
  split.
  - split; [exact Hrun|]. split; [reflexivity|].
    destruct (stopAll_waits_for_every_Stop 5000000000 hung_run hung_world
                (InGroup 1) true [StopInCall hanger] Hrun eq_refl) as [Hhang _].
    intros acts w' Hacts.
    destruct (Hhang 0 hanger eq_refl eq_refl acts w' Hacts) as (_ & Ho & Hb & HW).
    split; [exact (HW 1 eq_refl)|]. split; [exact Ho|exact Hb].
  - split; [exact Hout|]. split; [reflexivity|]. split; [reflexivity|].
    destruct (stopAll_waits_for_every_Stop 5000000000 hung_outside_run
                hung_outside_world (Outside 0) true [StopInCall stubborn]
                Hout eq_refl) as [Hhang _].
    intros acts w' Hacts.
    destruct (Hhang 0 stubborn eq_refl eq_refl acts w' Hacts) as (Hw & Ho & Hb & _).
    split; [exact Hw|]. split; [exact Ho|exact Hb].
Defined.

(** C3 as the spec states it fails on the code: the start of [hanger]
    fails, its goroutine runs the stop sequence and calls [hanger.Stop],
    which never returns; the deadline elapses.  From that state on, in every
    continuation, [Wait] does not return and the stop sequence does not
    end. *)
Lemma hung_Stop_blocks_Wait :
  exec hung_run (boot 5000000000) = Some hung_world
  ∧ callOf <$> wg (lg hung_world) !! 1 = Some (AtStopWait true [StopInCall hanger])
  ∧ stopOf hanger = StopHang
  ∧ ∀ acts w', exec acts hung_world = Some w' →
      Wait (lg w') = None ∧ stopOnce (lg w') ≠ OnceDone.
Proof.
  assert (exec hung_run (boot 5000000000) = Some hung_world) as Hrun
    by (vm_compute; reflexivity).
  split_and!; [exact Hrun|reflexivity|reflexivity|].
  intros acts w' Hacts.
  destruct (hung_forever hung_world 1
              (StartTask hanger (OnFailure (AtStopWait true [StopInCall hanger])))
              0 hanger (reachable_Inv _ _ _ Hrun) eq_refl) with (acts := acts) (w' := w')
    as (HW & Ho & _); [by exists true, [StopInCall hanger]|done|done|].
  split; [done|]. by rewrite Ho.
Qed.

Lemma start_failure_triggers_stop_witness :
  exec failed_upto_failure (boot 0) = Some failed_at_failure
  ∧ stopOnce (lg failed_at_failure) = OnceFresh
  ∧ startFailures (trace failed_at_failure) = 1
  ∧ startedServices (lg failed_at_failure) = [f1; f2]
  ∧ exec failed_after_failure failed_at_failure = Some failed_final
  ∧ Wait (lg failed_final) = Some ()
  ∧ startedServices (lg failed_final) = [f1; f2; f3]
  ∧ snapshots (trace failed_final) = [[f1; f2]]
  ∧ stopCalls f1 (trace failed_final) = 1
  ∧ stopCalls f2 (trace failed_final) = 1
  ∧ stopCalls f3 (trace failed_final) = 0
  ∧ stopOnce (lg failed_final) = OnceDone
  ∧ fanOuts (trace failed_final) = 1
  ∧ ∃ snap, snapshots (trace failed_final) = [snap]
      ∧ startedServices (lg failed_at_failure) `prefix_of` snap
      ∧ snap `prefix_of` startedServices (lg failed_final)
      ∧ ∀ s, stopCalls s (trace failed_final) = occ s snap
             ∧ occ s (startedServices (lg failed_at_failure))
               ≤ stopCalls s (trace failed_final).
Proof.
  assert (exec failed_upto_failure (boot 0) = Some failed_at_failure) as Hrun0
    by (vm_compute; reflexivity).
  assert (exec failed_after_failure failed_at_failure = Some failed_final) as Hrun
    by (vm_compute; reflexivity).
  assert (0 < startFailures (trace failed_final)) as Hf by (vm_compute; lia).
  split_and!; [exact Hrun0|reflexivity|reflexivity|reflexivity|exact Hrun
              |reflexivity|reflexivity|reflexivity|reflexivity|reflexivity
              |reflexivity|..];
    apply (start_failure_triggers_stop 0 failed_upto_failure failed_at_failure
             failed_after_failure failed_final Hrun0 eq_refl Hrun Hf);
    left; reflexivity.
Defined.

(** C4 as the spec states it fails on the code: the group keeps no record
    of the first failure.  [failsA] and [failsB] both fail their start; the
    run in which [failsA] fails first and the run in which [failsB] fails
    first end in the same group. *)
Lemma start_failure_is_not_recorded :
  ¬ ∃ recorded : Group (S:=fake) → outcome,
      ∀ acts (w : World (S:=fake)),
        exec acts (boot 0) = Some w →
        Wait (lg w) = Some () →
        recorded (lg w) = spec_firstFailure (trace w).
Proof.
  intros [recorded Hrec].
  assert (exec a_then_b (boot 0) = Some a_then_b_final) as Hab
    by (vm_compute; reflexivity).
  assert (exec b_then_a (boot 0) = Some b_then_a_final) as Hba
    by (vm_compute; reflexivity).
  pose proof (Hrec _ _ Hab eq_refl) as H1.
  pose proof (Hrec _ _ Hba eq_refl) as H2.
  change (lg b_then_a_final) with (lg a_then_b_final) in H2.
  rewrite H1 in H2. vm_compute in H2. discriminate H2.
Qed.

Lemma Wait_blocks_after_natural_completion_witness :
  Forall (λ s, startOf s = StartReturn None) [oneShot]
  ∧ forallb untriggered oneShot_run = true
  ∧ exec (map InvokeAdd [oneShot] ++ InvokeStart :: oneShot_run) (boot 0)
    = Some oneShot_final
  ∧ wg (lg oneShot_final) !! 1 = Some (StartTask oneShot StartDone)
  ∧ Wait (lg oneShot_final) = None
  ∧ wg (lg oneShot_final) !! 0 = Some (SignalTask Select)
  ∧ ctxDone (lg oneShot_final) = false.
Proof.
  assert (Forall (λ s : fake, startOf s = StartReturn None) [oneShot]) as Hregs
    by (repeat constructor).
  assert (exec (map InvokeAdd [oneShot] ++ InvokeStart :: oneShot_run) (boot 0)
          = Some oneShot_final) as Hrun by (vm_compute; reflexivity).
  split; [exact Hregs|]. split; [reflexivity|]. split; [exact Hrun|].
  split; [reflexivity|].
  exact (Wait_blocks_after_natural_completion 0 [oneShot] oneShot_run
           oneShot_final Hregs eq_refl Hrun).
Defined.

Lemma each_started_service_stopped_once_witness :
  exec multiple_begin (boot 0) = Some multiple_begun
  ∧ exec multiple_stop multiple_begun = Some multiple_final
  ∧ stopOnce (lg multiple_final) = OnceDone
  ∧ ∀ s, stopCalls s (trace multiple_final) = occ s [m1; m2; m3].
Proof.
  assert (exec multiple_begin (boot 0) = Some multiple_begun) as Hrun
    by (vm_compute; reflexivity).
  assert (exec multiple_stop multiple_begun = Some multiple_final) as Hstop
    by (vm_compute; reflexivity).
  split; [exact Hrun|]. split; [exact Hstop|]. split; [reflexivity|].
  destruct (each_started_service_stopped_once 0 multiple_begin multiple_begun Hrun)
    as [_ Hall].
  destruct (Hall eq_refl) as [Hruns _].
  - repeat constructor.
  - intros s. reflexivity.
  - destruct (Hruns multiple_stop multiple_final eq_refl Hstop) as [_ Hdone].
    exact (Hdone eq_refl).
Defined.

Lemma stop_outcomes_are_discarded_witness :
  exec (Service0:=fake_Service) badStop_run (boot 0) = Some badStop_final
  ∧ trace badStop_final !! 5 = Some (EvStopReturned badStop (Some "stop error"%string))
  ∧ ∃ w2, exec (Service0:=muted_Service) badStop_run (boot 0) = Some w2
          ∧ lg w2 = lg badStop_final
          ∧ callers w2 = callers badStop_final
          ∧ withoutStopOutcomes (trace w2) = withoutStopOutcomes (trace badStop_final)
          ∧ Wait (lg w2) = Wait (lg badStop_final).
Proof.
  assert (exec (Service0:=fake_Service) badStop_run (boot 0) = Some badStop_final)
    as Hrun by (vm_compute; reflexivity).
  split; [exact Hrun|]. split; [reflexivity|].
  apply (stop_outcomes_are_discarded fake_Service muted_Service).
  - intros s. reflexivity.
  - intros s. unfold stopOf. simpl. destruct (fakeStop s); reflexivity.
  - exact Hrun.
Defined.

Lemma registry_changes_only_by_Add_witness :
  exec multiple_begin (boot 0) = Some multiple_begun
  ∧ services (lg multiple_begun) = [m1; m2; m3].
Proof.
  assert (exec multiple_begin (boot 0) = Some multiple_begun) as Hrun
    by (vm_compute; reflexivity).
  split; [exact Hrun|].
  exact (registry_changes_only_by_Add multiple_begin (boot 0) multiple_begun Hrun).
Defined.

Lemma ctx_stays_done_witness :
  exec [InvokeStop; ActCaller 0 Run; ActCaller 0 Run] (boot 0)
  = Some (mkWorld (mkGroup [] true OnceRunning [] [] 0) [AtStopAll] [EvCancel])
  ∧ exec [InvokeAdd m1; InvokeStart; ActWg 1 Run; ActWg 1 Run; ActWg 1 Run; ActWg 0 Run]
      (mkWorld (mkGroup [] true OnceRunning [] [] 0) [AtStopAll] [EvCancel])
    = Some (mkWorld (mkGroup [SignalTask HandlerDone; StartTask m1 StartDone]
                       true OnceRunning [m1] [m1] 0)
              [AtStopAll] [EvCancel; EvStartCalled m1; EvStartReturned m1 None])
  ∧ ctxDone (mkGroup [SignalTask HandlerDone; StartTask m1 StartDone]
               true OnceRunning [m1] [m1] 0) = true.
Proof.
  split; [reflexivity|]. split; [reflexivity|].
  exact (ctx_stays_done
           [InvokeAdd m1; InvokeStart; ActWg 1 Run; ActWg 1 Run; ActWg 1 Run; ActWg 0 Run]
           (mkWorld (mkGroup [] true OnceRunning [] [] 0) [AtStopAll] [EvCancel])
           _ eq_refl eq_refl).
Defined.

Lemma cancel_precedes_fan_out_witness :
  exec failed_run (boot 0) = Some failed_final
  ∧ fanOuts (trace failed_final) ≤ cancels (trace failed_final)
  ∧ (0 < fanOuts (trace failed_final) → ctxDone (lg failed_final) = true)
  ∧ (0 < stopCalls f1 (trace failed_final) → ctxDone (lg failed_final) = true).
Proof.
  assert (exec failed_run (boot 0) = Some failed_final) as Hrun
    by (vm_compute; reflexivity).
  split; [exact Hrun|].
  exact (cancel_precedes_fan_out 0 failed_run failed_final f1 Hrun).
Defined.

Lemma successful_starts_do_not_stop_witness :
  exec succeeded_run (boot 0) = Some succeeded_world
  ∧ forallb unsolicited succeeded_run = true
  ∧ trace succeeded_world
    = [EvStartCalled oneShot; EvStartReturned oneShot None;
       EvStartCalled m2; EvStartCalled m3]
  ∧ wg (lg succeeded_world) !! 1 = Some (StartTask oneShot StartDone)
  ∧ startFailures (trace succeeded_world) = 0
  ∧ stopOnce (lg succeeded_world) = OnceFresh
  ∧ ctxDone (lg succeeded_world) = false
  ∧ cancels (trace succeeded_world) = 0
  ∧ ∀ s, stopCalls s (trace succeeded_world) = 0.
Proof.
  assert (exec succeeded_run (boot 0) = Some succeeded_world) as Hrun
    by (vm_compute; reflexivity).
  split_and!; [exact Hrun|reflexivity|reflexivity|reflexivity|reflexivity|..];
    apply (successful_starts_do_not_stop 0 succeeded_run succeeded_world
             Hrun eq_refl eq_refl).
Defined.

Lemma Stop_returns_after_every_service_Stop_witness :
  exec idempotent_run (boot 0) = Some idempotent_final
  ∧ callers idempotent_final !! 0 = Some Returned
  ∧ stopCalls m1 (trace idempotent_final) = 1
  ∧ stopReturns m1 (trace idempotent_final) ≤ stopCalls m1 (trace idempotent_final)
  ∧ ((∃ k, callers idempotent_final !! k = Some Returned)
     ∨ stopOnce (lg idempotent_final) = OnceDone →
     stopReturns m1 (trace idempotent_final) = stopCalls m1 (trace idempotent_final)).
Proof.
  assert (exec idempotent_run (boot 0) = Some idempotent_final) as Hrun
    by (vm_compute; reflexivity).
  split; [exact Hrun|]. split; [reflexivity|]. split; [reflexivity|].
  exact (Stop_returns_after_every_service_Stop 0 idempotent_run idempotent_final
           m1 Hrun).
Defined.

Lemma Wait_returns_only_after_cancel_witness :
  exec (multiple_begin ++ multiple_stop) (boot 0) = Some multiple_final
  ∧ wg (lg multiple_final) ≠ []
  ∧ Wait (lg multiple_final) = Some ()
  ∧ ctxDone (lg multiple_final) = true
  ∧ cancels (trace multiple_final) = 1.
Proof.
  assert (exec (multiple_begin ++ multiple_stop) (boot 0) = Some multiple_final)
    as Hrun by (vm_compute; reflexivity).
  assert (wg (lg multiple_final) ≠ []) as Hne by discriminate.
  split; [exact Hrun|]. split; [exact Hne|]. split; [reflexivity|].
  exact (Wait_returns_only_after_cancel 0 _ multiple_final Hrun Hne eq_refl).
Defined.

Lemma fan_out_settles_who_is_stopped_witness :
  exec failed_upto_fan_out (boot 0) = Some failed_fanned
  ∧ snapshots (trace failed_fanned) = [[f1; f2]]
  ∧ exec failed_rest failed_fanned = Some failed_final
  ∧ startCalls f3 (trace failed_final) = 1
  ∧ snapshots (trace failed_final) = [[f1; f2]]
  ∧ stopCalls f3 (trace failed_final) ≤ occ f3 [f1; f2].
Proof.
  assert (exec failed_upto_fan_out (boot 0) = Some failed_fanned) as Hrun
    by (vm_compute; reflexivity).
  assert (exec failed_rest failed_fanned = Some failed_final) as Hrest
    by (vm_compute; reflexivity).
  split; [exact Hrun|]. split; [reflexivity|]. split; [exact Hrest|].
  split; [reflexivity|].
  exact (fan_out_settles_who_is_stopped 0 failed_upto_fan_out failed_fanned
           [f1; f2] failed_rest failed_final f3 Hrun eq_refl Hrest).
Defined.

Lemma services_run_as_registered_witness :
  exec (map InvokeAdd [m1] ++ twice_run) (boot 0) = Some twice_final
  ∧ forallb afterRegistration twice_run = true
  ∧ Forall (λ task, begun task = true) (wg (lg twice_final))
  ∧ startedServices (lg twice_final) = [m1; m1]
  ∧ services (lg twice_final) = [m1]
  ∧ startCalls m1 (trace twice_final) ≤ occ m1 (startedServices (lg twice_final))
  ∧ stopCalls m1 (trace twice_final) ≤ occ m1 (startedServices (lg twice_final))
  ∧ occ m1 (startedServices (lg twice_final)) ≤ starts twice_run * occ m1 [m1]
  ∧ (Forall (λ task, begun task = true) (wg (lg twice_final)) →
     occ m1 (startedServices (lg twice_final)) = starts twice_run * occ m1 [m1]).
Proof.
  assert (exec (map InvokeAdd [m1] ++ twice_run) (boot 0) = Some twice_final)
    as Hrun by (vm_compute; reflexivity).
  split; [exact Hrun|]. split; [reflexivity|].
  split; [repeat constructor|]. split; [reflexivity|].
  exact (services_run_as_registered 0 [m1] twice_run twice_final m1 Hrun eq_refl).
Defined.

Lemma shutdown_is_always_possible_witness :
  exec failed_upto_fan_out (boot 0) = Some failed_fanned
  ∧ Forall cooperative (added failed_upto_fan_out)
  ∧ Wait (lg failed_fanned) = None
  ∧ ∃ acts' w',
      exec acts' failed_fanned = Some w'
      ∧ Wait (lg w') = Some ()
      ∧ stopOnce (lg w') = OnceDone
      ∧ forallb finishing acts' = true
      ∧ stops acts' ≤ 1.
Proof.
  assert (exec failed_upto_fan_out (boot 0) = Some failed_fanned) as Hrun
    by (vm_compute; reflexivity).
  assert (Forall cooperative (added failed_upto_fan_out)) as Hcoop
    by (repeat constructor; discriminate).
  split_and!; [exact Hrun|exact Hcoop|reflexivity|].
  exact (shutdown_is_always_possible 0 failed_upto_fan_out failed_fanned Hrun Hcoop).
Defined.

Lemma Wait_waits_for_its_own_stop_sequence_witness :
  exec outside_run (boot 0) = Some outside_world
  ∧ wg (lg outside_world) ≠ []
  ∧ Wait (lg outside_world) = Some ()
  ∧ stopCalls m1 (trace outside_world) = 0
  ∧ (stopOnce (lg outside_world) = OnceDone
     ∨ (stopOnce (lg outside_world) = OnceRunning
        ∧ ∃ k c, callers outside_world !! k = Some c ∧ pastCancel c = 1)).
Proof.
  assert (exec outside_run (boot 0) = Some outside_world) as Hrun
    by (vm_compute; reflexivity).
  split_and!; [exact Hrun|discriminate|reflexivity|reflexivity|].
  apply (Wait_waits_for_its_own_stop_sequence 0 outside_run outside_world Hrun);
    [discriminate|reflexivity].
Defined.

Lemma late_registration_is_ignored_witness :
  exec (late_begin ++ late_rest) (boot 0) = Some late_world
  ∧ occ m2 (added late_begin) = 0
  ∧ starts late_rest = 0
  ∧ services (lg late_world) = [m1; m2]
  ∧ startCalls m1 (trace late_world) = 1
  ∧ occ m2 (services (lg late_world)) = occ m2 (added late_rest)
  ∧ occ m2 (startedServices (lg late_world)) = 0
  ∧ startCalls m2 (trace late_world) = 0
  ∧ stopCalls m2 (trace late_world) = 0.
Proof.
  assert (exec (late_begin ++ late_rest) (boot 0) = Some late_world) as Hrun
    by (vm_compute; reflexivity).
  split_and!; [exact Hrun|reflexivity|reflexivity|reflexivity|reflexivity|..];
    apply (late_registration_is_ignored 0 late_begin late_rest late_world m2 Hrun);
    reflexivity.
Defined.
